(** * dso-name-pseudonymizer: a shallow embedding of [src/main.py]

    The program reads a text file, replaces every span that looks like
    "Firstname Lastname" by a pseudonym and writes the result.  This file
    embeds [NamePseudonymizer] and [main] and proves the properties the
    specification states about them.

    Data model
    - a Python [str] is a list of Unicode code points ([text]);
    - a Python [bytes] is a list of bytes;
    - paths, locale identifiers and encoding names are Rocq strings;
    - the file system is a finite map from paths to nodes;
    - effects (the random source, the file system, printing, logging and
      the calls to the external name generator) are threaded through a
      state-and-exception monad [M] whose state records a trace. *)

From Stdlib Require Import NArith ZArith Lia Bool Ascii String.
From stdpp Require Import base option list strings gmap.

Set Default Proof Using "Type".
Local Open Scope N_scope.

(** ** Characters and character classes *)

(** A Python string is a sequence of code points. *)
Definition text : Type := list N.

(** Code points of an ASCII literal. *)
Fixpoint of_string (s : string) : text :=
  match s with
  | EmptyString => []
  | String a s' => N_of_ascii a :: of_string s'
  end.

(** [Py_UNICODE_ISSPACE]: the characters [str.isspace], [str.strip] and the
    regular-expression class [\s] agree on (bidirectional type WS, B or S,
    or category Zs). *)
Definition isspace (c : N) : bool :=
  ((9 <=? c) && (c <=? 13)) || ((28 <=? c) && (c <=? 32))
  || (c =? 133) || (c =? 160) || (c =? 5760)
  || ((8192 <=? c) && (c <=? 8202))
  || (c =? 8232) || (c =? 8233) || (c =? 8239) || (c =? 8287) || (c =? 12288).

(** The set [[A-Z]]. *)
Definition upper (c : N) : bool := (65 <=? c) && (c <=? 90).

(** The set [[a-z]]. *)
Definition lower (c : N) : bool := (97 <=? c) && (c <=? 122).

(** ASCII digits. *)
Definition digit (c : N) : bool := (48 <=? c) && (c <=? 57).

(** ** Bytes, files, exceptions, messages and events *)

Definition bytes : Type := list Byte.byte.

(** A path of the file system names a regular file with its contents, or
    something that cannot be opened (a directory, a file without
    permission).  A path that is not in the map does not exist. *)
Inductive node : Type :=
| Regular (data : bytes)
| Inaccessible.

(** Python exceptions the program can meet (all subclasses of
    [Exception]). *)
Inductive exn : Type :=
| FileNotFoundError (path : string)
| OSError (path : string)
| UnicodeError
| LocaleError (loc : string)
| IndexError.

Inductive level : Type := DEBUG | INFO | WARNING | ERROR | CRITICAL.

Definition level_num (l : level) : nat :=
  match l with
  | DEBUG => 10 | INFO => 20 | WARNING => 30 | ERROR => 40 | CRITICAL => 50
  end%nat.

(** The messages of the program, by the line that formats them. *)
Inductive message : Type :=
| NameListNotFound (path : string)   (* "Name list file not found: ..." *)
| NameListReadError (e : exn)        (* "Error reading name list file: ..." *)
| BothGiven                          (* "Both --name_list and --gender ..." *)
| ErrorMsg (e : exn)                 (* "Error: ..." *)
| InitError (e : exn)                (* "Error initializing pseudonymizer: ..." *)
| InputNotFound (path : string)      (* "Error: Input file not found: ..." *)
| InputReadError (e : exn)           (* "Error reading input file: ..." *)
| WriteError (e : exn)               (* "Error writing to output file: ..." *)
| Written (path : string)            (* "Pseudonymized text written to ..." *)
| Unexpected (e : exn).              (* "An unexpected error occurred: ..." *)

(** What an observer sees of a run, in order. *)
Inductive event : Type :=
| EvOpen (path : string) (writing : bool)
| EvChoice (n : nat)                 (* random.choice over n names *)
| EvNameMale (loc : string)          (* Faker(loc).name_male() *)
| EvNameFemale (loc : string)        (* Faker(loc).name_female() *)
| EvName (loc : string)              (* Faker(loc).name() *)
| EvLog (lvl : level) (msg : message)
| EvPrint (msg : message).

(** ** External collaborators

    What the program consumes as black boxes: the Unicode tables of the
    interpreter, the random sources, the name generator, the encoding
    detector, the codecs and the platform. *)
Class Collaborators : Type := {
  (** [Py_UNICODE_ISALNUM] on the code points from 128 on. *)
  unicode_isalnum : N -> bool;
  (** The state of the random sources of the process. *)
  Rng : Type;
  (** [random.Random._randbelow n]. *)
  randbelow : nat -> Rng -> nat * Rng;
  (** [name_male()], [name_female()] and [name()] of a generator object
      built for a locale. *)
  fake_name_male : string -> Rng -> text * Rng;
  fake_name_female : string -> Rng -> text * Rng;
  fake_name : string -> Rng -> text * Rng;
  (** The locales the generator accepts. *)
  locale_supported : string -> bool;
  (** [chardet.detect(raw)['encoding']], which may be [None]. *)
  chardet_detect : bytes -> option string;
  (** Decoding under an encoding name ([None] is the default encoding of
      the platform) and encoding to UTF-8; both may fail. *)
  decode : option string -> bytes -> option text;
  encode_utf8 : text -> option bytes;
  (** [os.linesep]. *)
  os_linesep : text;
  (** The exception that creating a file at a path that does not exist
      raises, if any (a missing directory, no permission). *)
  create_fails : string -> option exn
}.

(** The contract of [_randbelow]: a result below its positive bound. *)
Definition randbelow_ok `{Collaborators} : Prop :=
  forall (n : nat) (r : Rng), (0 < n)%nat -> (fst (randbelow n r) < n)%nat.

Section Program.

Context {E : Collaborators}.

(** [str.isalnum] on one code point. *)
Definition isalnum (c : N) : bool :=
  if c <? 128 then upper c || lower c || digit c else unicode_isalnum c.

(** [\w] of a [str] pattern: alphanumeric or underscore. *)
Definition is_word (c : N) : bool := isalnum c || (c =? 95).

(** ** The regular expression engine, as far as the pattern needs it *)

(** Character sets of a pattern. *)
Inductive charset : Type :=
| Range (lo hi : N)      (* [lo-hi] *)
| Whitespace.            (* \s *)

Definition in_set (cs : charset) (c : N) : bool :=
  match cs with
  | Range lo hi => (lo <=? c) && (c <=? hi)
  | Whitespace => isspace c
  end.

(** Items of a pattern: one character of a set, a greedy repetition
    [set+], and the zero-width assertion [\b]. *)
Inductive item : Type :=
| One (cs : charset)
| Plus (cs : charset)
| Boundary.

Definition pattern : Type := list item.

(** [\b]: exactly one of the characters before and after the position is
    a word character; a missing neighbour counts as a non-word one. *)
Definition word_before (prev : option N) : bool :=
  match prev with Some c => is_word c | None => false end.

Definition word_after (s : text) : bool :=
  match s with c :: _ => is_word c | [] => false end.

Definition at_boundary (prev : option N) (s : text) : bool :=
  xorb (word_before prev) (word_after s).

(** The loop of a greedy repetition after its first character: take one
    more character of the set if possible, and fall back to the rest of the
    pattern [k] when the longer attempt fails (backtracking).  The result is
    the number of characters consumed. *)
Fixpoint greedy (cs : charset) (k : option N -> text -> option nat)
    (prev : option N) (s : text) : option nat :=
  match s with
  | c :: s' =>
      if in_set cs c then
        match greedy cs k (Some c) s' with
        | Some n => Some (S n)
        | None => k prev s
        end
      else k prev s
  | [] => k prev s
  end.

(** [match_at p prev s]: the match of [p] that starts at the head of [s],
    where [prev] is the character before it; the length of the match. *)
Fixpoint match_at (p : pattern) (prev : option N) (s : text) {struct p}
    : option nat :=
  match p with
  | [] => Some O
  | One cs :: p' =>
      match s with
      | c :: s' =>
          if in_set cs c then S <$> match_at p' (Some c) s' else None
      | [] => None
      end
  | Plus cs :: p' =>
      match s with
      | c :: s' =>
          if in_set cs c then S <$> greedy cs (match_at p') (Some c) s'
          else None
      | [] => None
      end
  | Boundary :: p' =>
      if at_boundary prev s then match_at p' prev s else None
  end.

(** [name_pattern = r'\b[A-Z][a-z]+\s[A-Z][a-z]+\b'] *)
Definition name_pattern : pattern :=
  [ Boundary; One (Range 65 90); Plus (Range 97 122); One Whitespace;
    One (Range 65 90); Plus (Range 97 122); Boundary ].

(** ** The world the program runs in *)

Record World : Type := mkWorld {
  files : gmap string node;
  rng : Rng;
  threshold : level;                 (* level of the root logger *)
  trace : list event
}.

(** ** The monad of effects *)

(** A computation returns, raises an exception, or leaves the process by
    [sys.exit] ([SystemExit] is not an [Exception]: no handler of the
    program catches it). *)
Inductive outcome (A : Type) : Type :=
| Return (a : A)
| Raise (e : exn)
| Exit (code : Z).
Arguments Return {A} a.
Arguments Raise {A} e.
Arguments Exit {A} code.

Definition M (A : Type) : Type := World -> outcome A * World.

Definition ret {A} (a : A) : M A := fun w => (Return a, w).

Definition bind {A B} (m : M A) (k : A -> M B) : M B :=
  fun w =>
    match m w with
    | (Return a, w') => k a w'
    | (Raise e, w') => (Raise e, w')
    | (Exit c, w') => (Exit c, w')
    end.

Notation "'let*' x := m 'in' k" := (bind m (fun x => k))
  (at level 10, x name, m at level 100, k at level 200).

Definition raise {A} (e : exn) : M A := fun w => (Raise e, w).

Definition sys_exit {A} (code : Z) : M A := fun w => (Exit code, w).

(** [try: m  except Exception as e: h e] *)
Definition try_except {A} (m : M A) (h : exn -> M A) : M A :=
  fun w =>
    match m w with
    | (Raise e, w') => h e w'
    | r => r
    end.

Definition emit (e : event) : M unit :=
  fun w => (Return tt,
            mkWorld (files w) (rng w) (threshold w) (trace w ++ [e])).

Definition print (msg : message) : M unit := emit (EvPrint msg).

(** [logging.log]: a record below the level of the root logger is
    dropped. *)
Definition logging (lvl : level) (msg : message) : M unit :=
  fun w =>
    if (level_num (threshold w) <=? level_num lvl)%nat
    then emit (EvLog lvl msg) w
    else (Return tt, w).

Definition setLevel (lvl : level) : M unit :=
  fun w => (Return tt, mkWorld (files w) (rng w) lvl (trace w)).

(** A step of a random source, recorded in the trace. *)
Definition draw {A} (e : event) (f : Rng -> A * Rng) : M A :=
  fun w =>
    let (a, r) := f (rng w) in
    (Return a, mkWorld (files w) r (threshold w) (trace w ++ [e])).

(** ** Files *)

Definition set_files (fs : gmap string node) (w : World) : World :=
  mkWorld fs (rng w) (threshold w) (trace w).

(** The empty path names no file. *)
Definition lookup_file (w : World) (path : string) : option node :=
  if decide (path = EmptyString) then None else files w !! path.

(** [open(path, 'r' or 'rb')] and reading the whole file. *)
Definition open_read (path : string) : M bytes :=
  let* _ := emit (EvOpen path false) in
  fun w =>
    match lookup_file w path with
    | None => (Raise (FileNotFoundError path), w)
    | Some Inaccessible => (Raise (OSError path), w)
    | Some (Regular data) => (Return data, w)
    end.

(** [open(path, 'w')]: creates the file or truncates it. *)
Definition open_write (path : string) : M unit :=
  let* _ := emit (EvOpen path true) in
  fun w =>
    match lookup_file w path with
    | Some Inaccessible => (Raise (OSError path), w)
    | Some (Regular _) =>
        (Return tt, set_files (<[path := Regular []]> (files w)) w)
    | None =>
        if decide (path = EmptyString) then (Raise (FileNotFoundError path), w)
        else match create_fails path with
             | Some e => (Raise e, w)
             | None =>
                 (Return tt, set_files (<[path := Regular []]> (files w)) w)
             end
    end.

(** Text written in text mode: ['\n'] becomes [os.linesep]. *)
Definition translate_newlines (t : text) : text :=
  flat_map (fun c => if c =? 10 then os_linesep else [c]) t.

(** [outfile.write(t)] on a file opened with [encoding='utf-8']. *)
Definition write_text (path : string) (t : text) : M unit :=
  fun w =>
    match encode_utf8 (translate_newlines t) with
    | Some data =>
        (Return tt, set_files (<[path := Regular data]> (files w)) w)
    | None => (Raise UnicodeError, w)
    end.

(** Text read in text mode: ['\r\n'] and ['\r'] become ['\n']. *)
Fixpoint universal_newlines (t : text) : text :=
  match t with
  | [] => []
  | c :: t' =>
      if c =? 13 then
        10 :: match t' with
              | d :: t'' =>
                  if d =? 10 then universal_newlines t''
                  else universal_newlines t'
              | [] => []
              end
      else c :: universal_newlines t'
  end.

Definition read_text (encoding : option string) (path : string) : M text :=
  let* data := open_read path in
  match decode encoding data with
  | Some t => ret (universal_newlines t)
  | None => raise UnicodeError
  end.

(** Iterating over a text file: each line ends after its ['\n']; the last
    line may have none.  [cur] is the line being read. *)
Fixpoint lines_from (cur : text) (t : text) : list text :=
  match t with
  | [] => match cur with [] => [] | _ => [cur] end
  | c :: t' =>
      if c =? 10 then (cur ++ [c]) :: lines_from [] t'
      else lines_from (cur ++ [c]) t'
  end.

Definition lines (t : text) : list text := lines_from [] t.

(** [str.strip()] *)
Fixpoint lstrip (t : text) : text :=
  match t with
  | c :: t' => if isspace c then lstrip t' else t
  | [] => []
  end.

Definition rstrip (t : text) : text := reverse (lstrip (reverse t)).

Definition strip (t : text) : text := rstrip (lstrip t).

(** ** class NamePseudonymizer *)

Record Faker : Type := mkFaker { faker_locale : string }.

(** [Faker(locale)]: the generator validates the locale. *)
Definition new_Faker (loc : string) : M Faker :=
  if locale_supported loc then ret (mkFaker loc) else raise (LocaleError loc).

Record NamePseudonymizer : Type := mkNamePseudonymizer {
  names : list text;
  gender : option string;
  locale : string;
  fake : Faker
}.

(** Truth value of an [Optional[str]]: [None] and [''] are false. *)
Definition truthy (o : option string) : bool :=
  match o with
  | Some s => negb (String.eqb s EmptyString)
  | None => false
  end.

(** [NamePseudonymizer.__init__] *)
Definition __init__ (name_list_path : option string) (gender : option string)
    (locale : string) : M NamePseudonymizer :=
  let* fake := new_Faker locale in
  let* names :=
    match name_list_path with
    | Some path =>
        if truthy name_list_path then
          try_except
            (let* data := open_read path in
             match decode (Some "utf-8"%string) data with
             | Some t => ret (map strip (lines (universal_newlines t)))
             | None => raise UnicodeError
             end)
            (fun e =>
               match e with
               | FileNotFoundError _ =>
                   let* _ := logging ERROR (NameListNotFound path) in raise e
               | _ =>
                   let* _ := logging ERROR (NameListReadError e) in raise e
               end)
        else ret []
    | None => ret []
    end in
  ret (mkNamePseudonymizer names gender locale fake).

(** [NamePseudonymizer._generate_pseudonym] *)
Definition _generate_pseudonym (self : NamePseudonymizer) : M text :=
  match names self with
  | _ :: _ =>
      (* random.choice(self.names) *)
      let n := length (names self) in
      let* i := draw (EvChoice n) (randbelow n) in
      match names self !! i with
      | Some x => ret x
      | None => raise IndexError
      end
  | [] =>
      let loc := faker_locale (fake self) in
      if decide (gender self = Some "male"%string) then
        draw (EvNameMale loc) (fake_name_male loc)
      else if decide (gender self = Some "female"%string) then
        draw (EvNameFemale loc) (fake_name_female loc)
      else
        draw (EvName loc) (fake_name loc)
  end.

(** [re.sub(p, repl, s)] with a callable [repl], scanning [s] from the
    left.  [prev] is the character before the head of [s]; [skip] counts
    the characters of the current match that are still to be passed over.
    An empty match inserts its replacement and the scan moves on by one
    character. *)
Fixpoint re_sub_from (p : pattern) (repl : text -> M text)
    (skip : nat) (prev : option N) (s : text) : M text :=
  match s with
  | [] =>
      match match_at p prev [] with
      | Some _ => repl []
      | None => ret []
      end
  | c :: s' =>
      match skip with
      | S k => re_sub_from p repl k (Some c) s'
      | O =>
          match match_at p prev s with
          | Some (S k) =>
              let* r := repl (take (S k) s) in
              let* rest := re_sub_from p repl k (Some c) s' in
              ret (r ++ rest)
          | Some O =>
              let* r := repl [] in
              let* rest := re_sub_from p repl O (Some c) s' in
              ret (r ++ c :: rest)
          | None =>
              let* rest := re_sub_from p repl O (Some c) s' in
              ret (c :: rest)
          end
      end
  end.

Definition re_sub (p : pattern) (repl : text -> M text) (s : text) : M text :=
  re_sub_from p repl O None s.

(** [NamePseudonymizer.pseudonymize_text] *)
Definition pseudonymize_text (self : NamePseudonymizer) (t : text) : M text :=
  let replace_name (_ : text) := _generate_pseudonym self in
  re_sub name_pattern replace_name t.

(** ** main *)

Record Args : Type := mkArgs {
  input_file : string;
  output_file : string;
  name_list : option string;
  args_gender : option string;
  args_locale : string;
  log_level : level
}.

Definition main (args : Args) : M unit :=
  let* _ := setLevel (log_level args) in
  try_except
    (let* _ := (if truthy (name_list args) && truthy (args_gender args)
         then logging WARNING BothGiven else ret tt) in
     let* pseudonymizer :=
       try_except
         (__init__ (name_list args) (args_gender args) (args_locale args))
         (fun e =>
            match e with
            | FileNotFoundError _ => let* _ := print (ErrorMsg e) in sys_exit 1
            | _ => let* _ := print (InitError e) in sys_exit 1
            end) in
     (* Determine file encoding *)
     let* raw_data := open_read (input_file args) in
     let encoding := chardet_detect raw_data in
     (* Read the input file *)
     let* t :=
       try_except
         (read_text encoding (input_file args))
         (fun e =>
            match e with
            | FileNotFoundError _ =>
                let* _ := logging ERROR (InputNotFound (input_file args)) in
                let* _ := print (InputNotFound (input_file args)) in
                sys_exit 1
            | _ =>
                let* _ := logging ERROR (InputReadError e) in
                let* _ := print (InputReadError e) in
                sys_exit 1
            end) in
     let* pseudonymized_text := pseudonymize_text pseudonymizer t in
     (* Write the output to a file *)
     let* _ := try_except
          (let* _ := open_write (output_file args) in
           write_text (output_file args) pseudonymized_text)
          (fun e =>
             let* _ := logging ERROR (WriteError e) in
             let* _ := print (WriteError e) in
             sys_exit 1) in
     let* _ := logging INFO (Written (output_file args)) in
     print (Written (output_file args)))
    (fun e =>
       let* _ := logging CRITICAL (Unexpected e) in
       let* _ := print (Unexpected e) in
       sys_exit 1).

(** The exit status of the process: 0 when [main] returns, the argument of
    [sys.exit], 1 for an exception nobody caught. *)
Definition exit_status {A} (o : outcome A) : Z :=
  match o with
  | Return _ => 0%Z
  | Exit c => c
  | Raise _ => 1%Z
  end.

End Program.

Arguments Return {A} a.
Arguments Raise {A} e.
Arguments Exit {A} code.

(** ** The specification's vocabulary *)

Section Vocabulary.

Context {E : Collaborators}.

(** A scanned text is a sequence of pieces: characters that are kept and
    spans that are hit by the pattern. *)
Inductive piece : Type :=
| Keep (c : N)
| Hit (m : text).

(** The text a sequence of pieces was cut from. *)
Fixpoint source (ps : list piece) : text :=
  match ps with
  | [] => []
  | Keep c :: ps' => c :: source ps'
  | Hit m :: ps' => m ++ source ps'
  end.

(** The spans that were hit, from left to right. *)
Fixpoint hits (ps : list piece) : list text :=
  match ps with
  | [] => []
  | Keep _ :: ps' => hits ps'
  | Hit m :: ps' => m :: hits ps'
  end.

(** The text with the i-th hit replaced by the i-th replacement and every
    kept character passed through. *)
Fixpoint fill (ps : list piece) (reps : list text) : text :=
  match ps with
  | [] => []
  | Keep c :: ps' => c :: fill ps' reps
  | Hit _ :: ps' =>
      match reps with
      | r :: reps' => r ++ fill ps' reps'
      | [] => fill ps' []
      end
  end.

(** The pieces [re.sub] cuts a text into: the scan of [re_sub_from]
    without the replacement. *)
Fixpoint re_scan_from (p : pattern) (skip : nat) (prev : option N) (s : text)
    : list piece :=
  match s with
  | [] =>
      match match_at p prev [] with
      | Some _ => [Hit []]
      | None => []
      end
  | c :: s' =>
      match skip with
      | S k => re_scan_from p k (Some c) s'
      | O =>
          match match_at p prev s with
          | Some (S k) => Hit (take (S k) s) :: re_scan_from p k (Some c) s'
          | Some O => Hit [] :: Keep c :: re_scan_from p O (Some c) s'
          | None => Keep c :: re_scan_from p O (Some c) s'
          end
      end
  end.

Definition re_scan (p : pattern) (s : text) : list piece :=
  re_scan_from p O None s.

(** The rest of the pattern after the first word, and after the second. *)
Definition after_first : pattern :=
  [ One Whitespace; One (Range 65 90); Plus (Range 97 122); Boundary ].

Definition after_second : pattern := [ Boundary ].

(** A capitalized word: one of A-Z followed by one or more of a-z. *)
Definition capitalized (wd : text) : Prop :=
  exists u ls, wd = u :: ls /\ upper u = true /\ ls <> [] /\
               Forall (fun c => lower c = true) ls.

(** A name-shaped span: two capitalized words with one separator between
    them.  [sep] says which characters separate. *)
Definition name_shaped (sep : N -> bool) (m : text) : Prop :=
  exists w1 c w2, m = w1 ++ c :: w2 /\ capitalized w1 /\ sep c = true /\
                  capitalized w2.

(** The last character of [m], or [prev] when [m] is empty: the character
    before the position that follows [m]. *)
Definition last_char (prev : option N) (m : text) : option N :=
  match last m with
  | Some c => Some c
  | None => prev
  end.

(** [m] is a match of the detection rule at the head of [s], with word
    boundaries on both ends: no word character before it or after it. *)
Definition name_at (sep : N -> bool) (prev : option N) (s m : text) : Prop :=
  exists rest, s = m ++ rest /\ name_shaped sep m /\
               word_before prev = false /\ word_after rest = false.

(** The non-overlapping matches of a text, found from left to right: at
    each position the text either has a match, which is taken whole, or has
    none, and the character is kept. *)
Inductive Scan (sep : N -> bool) : option N -> text -> list piece -> Prop :=
| Scan_end prev :
    Scan sep prev [] []
| Scan_keep prev c s ps :
    (forall m, ~ name_at sep prev (c :: s) m) ->
    Scan sep (Some c) s ps ->
    Scan sep prev (c :: s) (Keep c :: ps)
| Scan_hit prev m rest ps :
    name_at sep prev (m ++ rest) m ->
    Scan sep (last_char prev m) rest ps ->
    Scan sep prev (m ++ rest) (Hit m :: ps).

(** A text has no name-shaped span when no part of it is one. *)
Definition no_span (sep : N -> bool) (t : text) : Prop :=
  forall pre m post, t = pre ++ m ++ post -> ~ name_shaped sep m.

(** A text has no match when no part of it is a name-shaped span between
    word boundaries. *)
Definition no_match (sep : N -> bool) (t : text) : Prop :=
  forall pre m post,
    t = pre ++ m ++ post -> ~ name_at sep (last pre) (m ++ post) m.

(** The literal space, U+0020. *)
Definition is_space_char (c : N) : bool := c =? 32.

(** Successive calls of a step [R] from world to world, with the values
    they return. *)
Inductive Chain {W A : Type} (R : W -> A -> W -> Prop)
    : W -> list A -> W -> Prop :=
| Chain_nil w : Chain R w [] w
| Chain_cons w r w1 rs w' :
    R w r w1 -> Chain R w1 rs w' -> Chain R w (r :: rs) w'.

(** The event a call of the generator leaves in the trace, by gender. *)
Definition generator_event (g : option string) (loc : string) : event :=
  if decide (g = Some "male"%string) then EvNameMale loc
  else if decide (g = Some "female"%string) then EvNameFemale loc
  else EvName loc.


(** The events of calls to the synthetic generator. *)
Definition is_synthetic (e : event) : bool :=
  match e with
  | EvNameMale _ | EvNameFemale _ | EvName _ => true
  | _ => false
  end.

(** [r] is [l] without its surrounding whitespace: what was cut off on
    both sides is whitespace, and [r] neither starts nor ends with any. *)
Definition stripped_of (l r : text) : Prop :=
  exists a b, l = a ++ r ++ b /\
    Forall (fun c => isspace c = true) a /\
    Forall (fun c => isspace c = true) b /\
    (forall c, head r = Some c -> isspace c = false) /\
    (forall c, last r = Some c -> isspace c = false).

(** [ls] are the lines of [u], in order: together they are [u], none is
    empty, a line feed can only be the last character of a line, and every
    line but the last one ends with it. *)
Definition lines_of (u : text) (ls : list text) : Prop :=
  concat ls = u /\
  Forall (fun l => l <> [] /\
                   forall pre post, l = pre ++ 10 :: post -> post = []) ls /\
  (forall i l, ls !! i = Some l -> (S i < length ls)%nat ->
               last l = Some 10).

(** The world after more events. *)
Definition add_events (evs : list event) (w : World) : World :=
  mkWorld (files w) (rng w) (threshold w) (trace w ++ evs).

(** The log record of a message, if the level of the root logger lets it
    through. *)
Definition logged (w : World) (lvl : level) (msg : message) : list event :=
  if (level_num (threshold w) <=? level_num lvl)%nat then [EvLog lvl msg]
  else [].

(** The world in which [main] constructs the pseudonymizer: the level of
    the root logger is set, and the warning about [--name_list] together
    with [--gender] is logged if both were given. *)
Definition start (args : Args) (w : World) : World :=
  let w0 := mkWorld (files w) (rng w) (log_level args) (trace w) in
  add_events
    (if truthy (name_list args) && truthy (args_gender args)
     then logged w0 WARNING BothGiven else [])
    w0.

(** The last stage of [main]: writing the result and confirming it, under
    the handlers of [main]. *)
Definition write_stage (args : Args) (out : text) : M unit :=
  try_except
    (bind
       (try_except
          (bind (open_write (output_file args))
                (fun _ => write_text (output_file args) out))
          (fun e =>
             bind (logging ERROR (WriteError e)) (fun _ =>
             bind (print (WriteError e)) (fun _ => sys_exit 1))))
       (fun _ =>
          bind (logging INFO (Written (output_file args))) (fun _ =>
          print (Written (output_file args)))))
    (fun e =>
       bind (logging CRITICAL (Unexpected e)) (fun _ =>
       bind (print (Unexpected e)) (fun _ => sys_exit 1))).

(** The message [main] prints when construction fails. *)
Definition init_failure (e : exn) : message :=
  match e with
  | FileNotFoundError _ => ErrorMsg e
  | _ => InitError e
  end.

(** What one call of [_generate_pseudonym] does to the world: it leaves
    the files and the logger alone and adds one event to the trace; with a
    name list the value is an entry of the list. *)
Definition gen_step (self : NamePseudonymizer) (w : World) (r : text)
    (w' : World) : Prop :=
  files w' = files w /\ threshold w' = threshold w /\
  match names self with
  | [] =>
      trace w' =
        trace w ++ [generator_event (gender self) (faker_locale (fake self))]
  | _ :: _ =>
      r ∈ names self /\
      trace w' = trace w ++ [EvChoice (length (names self))]
  end.

End Vocabulary.

(** ** A concrete world

    A deterministic instance of the collaborators, on which the program
    can be run: the random source is a counter, the generator returns
    fixed names, files hold Latin-1 text. *)
Module Demo.

Definition next_index (n : nat) (r : nat) : nat * nat := ((r mod n)%nat, S r).

Definition fixed_name (nm : string) (_ : string) (r : nat) : text * nat :=
  (of_string nm, S r).

Definition latin1_decode (data : bytes) : text := map Byte.to_N data.

Definition latin1_encode (t : text) : option bytes := mapM Byte.of_N t.

Definition collaborators : Collaborators := {|
  unicode_isalnum := fun _ => false;
  Rng := nat;
  randbelow := next_index;
  fake_name_male := fixed_name "John Doe";
  fake_name_female := fixed_name "Jane Doe";
  fake_name := fixed_name "Sam Doe";
  locale_supported := fun loc => String.eqb loc "en_US";
  chardet_detect := fun _ => Some "ascii"%string;
  decode := fun _ data => Some (latin1_decode data);
  encode_utf8 := latin1_encode;
  os_linesep := [10];
  create_fails := fun _ => None
|}.

Definition to_bytes (s : string) : bytes := list_byte_of_string s.

Definition jordan : text := of_string "Jordan Lee".

(** A pseudonymizer with the single name "Jordan Lee". *)
Definition self_jordan : NamePseudonymizer :=
  mkNamePseudonymizer [jordan] None "en_US" (mkFaker "en_US").

(** "Alice\tSmith": two capitalized words separated by a tab. *)
Definition alice_tab_smith : text :=
  of_string "Alice" ++ [9] ++ of_string "Smith".

Definition scenario : text :=
  of_string "Alice Smith went to New York with Bob Jones.".

(** A name list with a duplicate and an empty line. *)
Definition names_txt : bytes :=
  to_bytes " Ann Lee " ++ [Byte.x0a; Byte.x0a] ++
  to_bytes "Ann Lee" ++ [Byte.x0d; Byte.x0a] ++ to_bytes "Bo Ek".

Definition disk : gmap string node :=
  {[ "in.txt"%string := Regular (to_bytes "Dear Alice Smith, hello.");
     "names.txt"%string := Regular names_txt;
     "empty.txt"%string := Regular [] ]}.

Definition world (fs : gmap string node) : World (E := collaborators) :=
  @mkWorld collaborators fs O INFO [].

Definition args (n : option string) (g : option string) : Args :=
  mkArgs "in.txt" "out.txt" n g "en_US" INFO.

End Demo.

(** * Properties *)

Section Theory.

Context {E : Collaborators}.

(** ** Character classes *)

Lemma lower_is_word c : lower c = true -> is_word c = true.
Proof.
  unfold is_word, isalnum. intros Hc. rewrite Hc.
  apply andb_true_iff in Hc as [H1 H2].
  apply N.leb_le in H1, H2.
  destruct (N.ltb_spec c 128) as [_|?]; [|lia].
  rewrite orb_true_r. reflexivity.
Qed.

Lemma upper_is_word c : upper c = true -> is_word c = true.
Proof.
  unfold is_word, isalnum. intros Hc. rewrite Hc.
  apply andb_true_iff in Hc as [H1 H2].
  apply N.leb_le in H1, H2.
  destruct (N.ltb_spec c 128) as [_|?]; [|lia]. reflexivity.
Qed.

Lemma lower_not_space c : lower c = true -> isspace c = false.
Proof.
  unfold lower, isspace. intros Hc.
  apply andb_true_iff in Hc as [H1 H2].
  apply N.leb_le in H1, H2.
  repeat match goal with
  | |- context [?a <=? ?b] =>
      destruct (N.leb_spec a b); try lia
  | |- context [?a =? ?b] =>
      destruct (N.eqb_spec a b); try lia
  end; reflexivity.
Qed.

Lemma space_not_lower c : isspace c = true -> lower c = false.
Proof.
  intros Hs. destruct (lower c) eqn:Hl; [|reflexivity].
  apply lower_not_space in Hl. congruence.
Qed.

(** ** The matcher *)

Lemma last_char_cons prev c m :
  last_char prev (c :: m) = last_char (Some c) m.
Proof.
  unfold last_char. destruct m as [|d m]; [reflexivity|].
  change (last (c :: d :: m)) with (last (d :: m)).
  destruct (last (d :: m)) eqn:Hlast; [reflexivity|].
  apply last_None in Hlast. discriminate.
Qed.

Lemma last_char_app prev m1 m2 :
  last_char prev (m1 ++ m2) = last_char (last_char prev m1) m2.
Proof.
  revert prev. induction m1 as [|c m1 IH]; intros prev; [reflexivity|].
  rewrite <- app_comm_cons, !last_char_cons. apply IH.
Qed.

(** What a successful greedy loop consumed: a run of the set, then what the
    rest of the pattern consumed. *)
Lemma greedy_inv cs k s : forall prev n,
  greedy cs k prev s = Some n ->
  exists run rest j,
    s = run ++ rest /\ Forall (fun c => in_set cs c = true) run /\
    k (last_char prev run) rest = Some j /\ n = (length run + j)%nat.
Proof.
  induction s as [|c s IH]; intros prev n Hg; cbn in Hg.
  - exists [], [], n. repeat split; auto.
  - destruct (in_set cs c) eqn:Hc.
    + destruct (greedy cs k (Some c) s) as [j|] eqn:Hrec.
      * injection Hg as <-.
        destruct (IH _ _ Hrec) as (run & rest & i & -> & Hrun & Hk & ->).
        exists (c :: run), rest, i. rewrite last_char_cons.
        repeat split; auto.
      * exists [], (c :: s), n. repeat split; auto.
    + exists [], (c :: s), n. repeat split; auto.
Qed.

(** The greedy loop takes the whole run when the rest of the pattern can
    never start inside it. *)
Lemma greedy_run cs k run : forall prev rest,
  (forall p c s, in_set cs p = true -> in_set cs c = true ->
                 k (Some p) (c :: s) = None) ->
  (exists p, prev = Some p /\ in_set cs p = true) ->
  Forall (fun c => in_set cs c = true) run ->
  (match rest with c :: _ => in_set cs c = false | [] => True end) ->
  greedy cs k prev (run ++ rest) =
    (fun j => (length run + j)%nat) <$> k (last_char prev run) rest.
Proof.
  induction run as [|c run IH]; intros prev rest Hk Hprev Hrun Hrest.
  - cbn. destruct rest as [|c rest]; cbn.
    + destruct (k prev []); reflexivity.
    + rewrite Hrest. destruct (k prev (c :: rest)); reflexivity.
  - apply Forall_cons in Hrun as [Hc Hrun]. cbn. rewrite Hc.
    rewrite (IH (Some c) rest Hk); eauto.
    rewrite last_char_cons.
    destruct (k (last_char (Some c) run) rest) as [j|]; cbn; [reflexivity|].
    destruct Hprev as (p & -> & Hp). apply Hk; assumption.
Qed.

(** A match never reaches beyond the text. *)
Lemma greedy_length cs k s : forall prev n,
  (forall prev s n, k prev s = Some n -> (n <= length s)%nat) ->
  greedy cs k prev s = Some n -> (n <= length s)%nat.
Proof.
  intros prev n Hk Hg.
  destruct (greedy_inv _ _ _ _ _ Hg) as (run & rest & j & -> & _ & Hj & ->).
  apply Hk in Hj. rewrite length_app. lia.
Qed.

Lemma match_at_length p : forall prev s n,
  match_at p prev s = Some n -> (n <= length s)%nat.
Proof.
  induction p as [|it p IH]; intros prev s n Hm; cbn in Hm.
  - injection Hm as <-. lia.
  - destruct it as [cs|cs|].
    + destruct s as [|c s]; [discriminate|].
      destruct (in_set cs c); [|discriminate].
      destruct (match_at p (Some c) s) as [j|] eqn:Hj; [|discriminate].
      injection Hm as <-. apply IH in Hj. cbn. lia.
    + destruct s as [|c s]; [discriminate|].
      destruct (in_set cs c); [|discriminate].
      destruct (greedy cs (match_at p) (Some c) s) as [j|] eqn:Hj;
        [|discriminate].
      injection Hm as <-. apply greedy_length in Hj; [cbn; lia|apply IH].
    + destruct (at_boundary prev s); [|discriminate]. eapply IH, Hm.
Qed.

(** Unfolding the matcher one item at a time. *)
Lemma match_at_One cs p prev s :
  match_at (One cs :: p) prev s =
    match s with
    | c :: s' => if in_set cs c then S <$> match_at p (Some c) s' else None
    | [] => None
    end.
Proof. reflexivity. Qed.

Lemma match_at_Plus cs p prev s :
  match_at (Plus cs :: p) prev s =
    match s with
    | c :: s' =>
        if in_set cs c then S <$> greedy cs (match_at p) (Some c) s' else None
    | [] => None
    end.
Proof. reflexivity. Qed.

Lemma match_at_Boundary p prev s :
  match_at (Boundary :: p) prev s =
    if at_boundary prev s then match_at p prev s else None.
Proof. reflexivity. Qed.

Lemma match_at_nil prev s : match_at [] prev s = Some O.
Proof. reflexivity. Qed.

(** ** The detection pattern *)

Lemma last_char_lower l run :
  lower l = true -> Forall (fun c => lower c = true) run ->
  exists c, last_char (Some l) run = Some c /\ lower c = true.
Proof.
  revert l. induction run as [|d run IH]; intros l Hl Hrun.
  - exists l. split; [reflexivity|assumption].
  - apply Forall_cons in Hrun as [Hd Hrun]. rewrite last_char_cons.
    apply IH; assumption.
Qed.

Lemma word_before_lower l run :
  lower l = true -> Forall (fun c => lower c = true) run ->
  word_before (last_char (Some l) run) = true.
Proof.
  intros Hl Hrun. destruct (last_char_lower l run Hl Hrun) as (c & -> & Hc).
  cbn. apply lower_is_word, Hc.
Qed.

Lemma after_first_inside p c s :
  in_set (Range 97 122) p = true -> in_set (Range 97 122) c = true ->
  match_at after_first (Some p) (c :: s) = None.
Proof.
  intros _ Hc. change (lower c = true) in Hc. cbn.
  rewrite (lower_not_space c Hc). reflexivity.
Qed.

Lemma after_second_inside p c s :
  in_set (Range 97 122) p = true -> in_set (Range 97 122) c = true ->
  match_at after_second (Some p) (c :: s) = None.
Proof.
  intros Hp Hc. change (lower p = true) in Hp. change (lower c = true) in Hc.
  cbn. unfold at_boundary. cbn.
  rewrite (lower_is_word p Hp), (lower_is_word c Hc). reflexivity.
Qed.

(** Every match of the pattern is a name-shaped span between word
    boundaries, and its length is the length of the span. *)
Lemma match_name_sound prev s n :
  match_at name_pattern prev s = Some n ->
  exists m, name_at isspace prev s m /\ n = length m.
Proof.
  unfold name_pattern. rewrite match_at_Boundary. intros Hm.
  destruct (at_boundary prev s) eqn:Hb; [|discriminate].
  rewrite match_at_One in Hm.
  destruct s as [|u1 s]; [discriminate|].
  destruct (in_set (Range 65 90) u1) eqn:Hu1; [|discriminate].
  rewrite match_at_Plus in Hm.
  destruct s as [|l1 s]; [discriminate|].
  destruct (in_set (Range 97 122) l1) eqn:Hl1; [|discriminate].
  fold after_first in Hm.
  destruct (greedy (Range 97 122) (match_at after_first) (Some l1) s)
    as [j1|] eqn:Hg1; [|discriminate].
  injection Hm as <-.
  destruct (greedy_inv _ _ _ _ _ Hg1)
    as (run1 & rest1 & i1 & -> & Hrun1 & Hk1 & ->).
  unfold after_first in Hk1. rewrite match_at_One in Hk1.
  destruct rest1 as [|sp rest1]; [discriminate|].
  destruct (in_set Whitespace sp) eqn:Hsp; [|discriminate].
  rewrite match_at_One in Hk1.
  destruct rest1 as [|u2 rest1]; [discriminate|].
  destruct (in_set (Range 65 90) u2) eqn:Hu2; [|discriminate].
  rewrite match_at_Plus in Hk1.
  destruct rest1 as [|l2 rest1]; [discriminate|].
  destruct (in_set (Range 97 122) l2) eqn:Hl2; [|discriminate].
  fold after_second in Hk1.
  destruct (greedy (Range 97 122) (match_at after_second) (Some l2) rest1)
    as [j2|] eqn:Hg2; [|discriminate].
  injection Hk1 as <-.
  destruct (greedy_inv _ _ _ _ _ Hg2)
    as (run2 & rest2 & i2 & -> & Hrun2 & Hk2 & ->).
  unfold after_second in Hk2. rewrite match_at_Boundary in Hk2.
  destruct (at_boundary (last_char (Some l2) run2) rest2) eqn:Hb2;
    [|discriminate].
  injection Hk2 as <-.
  exists ((u1 :: l1 :: run1) ++ sp :: (u2 :: l2 :: run2)). split.
  - exists rest2. split; [|split; [|split]].
    + cbn. rewrite <- ?app_assoc. cbn. rewrite <- ?app_assoc. reflexivity.
    + exists (u1 :: l1 :: run1), sp, (u2 :: l2 :: run2).
      split; [reflexivity|]. split; [|split; [exact Hsp|]].
      * exists u1, (l1 :: run1). repeat split; auto; constructor; auto.
      * exists u2, (l2 :: run2). repeat split; auto; constructor; auto.
    + unfold at_boundary in Hb. cbn [word_after] in Hb.
      rewrite (upper_is_word u1 Hu1) in Hb.
      destruct (word_before prev); [discriminate|reflexivity].
    + unfold at_boundary in Hb2.
      rewrite (word_before_lower l2 run2 Hl2 Hrun2) in Hb2.
      destruct (word_after rest2); [discriminate|reflexivity].
  - cbn. rewrite ?length_app. cbn. rewrite ?length_app. cbn. lia.
Qed.

(** Conversely, a name-shaped span between word boundaries is matched, and
    matched whole. *)
Lemma match_name_complete prev s m :
  name_at isspace prev s m ->
  match_at name_pattern prev s = Some (length m).
Proof.
  intros (rest & -> & (w1 & sp & w2 & -> & Hw1 & Hsp & Hw2) & Hpb & Hra).
  destruct Hw1 as (u1 & ls1 & -> & Hu1 & Hne1 & Hls1).
  destruct Hw2 as (u2 & ls2 & -> & Hu2 & Hne2 & Hls2).
  destruct ls1 as [|l1 run1]; [congruence|].
  destruct ls2 as [|l2 run2]; [congruence|].
  apply Forall_cons in Hls1 as [Hl1 Hrun1].
  apply Forall_cons in Hls2 as [Hl2 Hrun2].
  remember (length ((u1 :: l1 :: run1) ++ sp :: u2 :: l2 :: run2)) as n eqn:Hn.
  replace (((u1 :: l1 :: run1) ++ sp :: u2 :: l2 :: run2) ++ rest)
    with (u1 :: l1 :: run1 ++ (sp :: u2 :: l2 :: run2 ++ rest))
    by (cbn; rewrite <- ?app_assoc; reflexivity).
  unfold name_pattern. rewrite match_at_Boundary.
  unfold at_boundary at 1. cbn [word_after].
  rewrite Hpb, (upper_is_word u1 Hu1). cbn [xorb].
  rewrite match_at_One. change (in_set (Range 65 90) u1) with (upper u1).
  rewrite Hu1, match_at_Plus.
  change (in_set (Range 97 122) l1) with (lower l1). rewrite Hl1.
  fold after_first.
  rewrite (greedy_run (Range 97 122) (match_at after_first) run1);
    [|exact after_first_inside|eauto|exact Hrun1|exact (space_not_lower sp Hsp)].
  unfold after_first. rewrite match_at_One.
  change (in_set Whitespace sp) with (isspace sp). rewrite Hsp.
  rewrite match_at_One. change (in_set (Range 65 90) u2) with (upper u2).
  rewrite Hu2, match_at_Plus.
  change (in_set (Range 97 122) l2) with (lower l2). rewrite Hl2.
  fold after_second.
  rewrite (greedy_run (Range 97 122) (match_at after_second) run2);
    [|exact after_second_inside|eauto|exact Hrun2|].
  - unfold after_second. rewrite match_at_Boundary. unfold at_boundary.
    rewrite (word_before_lower l2 run2 Hl2 Hrun2), Hra. cbn.
    f_equal. subst n. cbn. rewrite ?length_app. cbn. lia.
  - destruct rest as [|c rest]; [exact I|]. cbn in Hra.
    change (lower c = false). destruct (lower c) eqn:Hc; [|reflexivity].
    rewrite (lower_is_word c Hc) in Hra. discriminate.
Qed.

(** ** The scan *)

Lemma re_scan_skip p s : forall k prev,
  (k <= length s)%nat ->
  re_scan_from p k prev s =
    re_scan_from p O (last_char prev (take k s)) (drop k s).
Proof.
  induction s as [|c s IH]; intros k prev Hk.
  - destruct k; [reflexivity|cbn in Hk; lia].
  - destruct k as [|k]; [reflexivity|].
    cbn [take drop]. rewrite last_char_cons.
    cbn [re_scan_from]. apply IH. cbn in Hk. lia.
Qed.

Lemma name_shaped_nonempty sep m : name_shaped sep m -> m <> [].
Proof.
  intros (w1 & c & w2 & -> & _) Hnil.
  apply app_eq_nil in Hnil as [_ Hnil]. discriminate.
Qed.

Lemma match_name_nil prev : match_at name_pattern prev [] = None.
Proof.
  unfold name_pattern. rewrite match_at_Boundary.
  destruct (at_boundary prev []); reflexivity.
Qed.

(** The pieces the scan cuts a text into are its non-overlapping matches,
    found from left to right. *)
Lemma re_scan_Scan n : forall s prev,
  (length s <= n)%nat ->
  Scan isspace prev s (re_scan_from name_pattern O prev s).
Proof.
  induction n as [|n IH]; intros s prev Hn.
  - destruct s; [|cbn in Hn; lia].
    cbn [re_scan_from]. rewrite match_name_nil. constructor.
  - destruct s as [|c s].
    { cbn [re_scan_from]. rewrite match_name_nil. constructor. }
    cbn [re_scan_from].
    destruct (match_at name_pattern prev (c :: s)) as [[|k]|] eqn:Hm.
    + apply match_name_sound in Hm as (m & Hat & Hlen).
      destruct Hat as (rest & _ & Hsh & _).
      apply name_shaped_nonempty in Hsh. destruct m; [congruence|discriminate].
    + pose proof (match_at_length _ _ _ _ Hm) as Hle.
      apply match_name_sound in Hm as (m & Hat & Hlen).
      pose proof Hat as (rest & Hs & _).
      assert (Htake : take (S k) (c :: s) = m).
      { rewrite Hs, Hlen. apply take_app_length. }
      assert (Hdrop : drop (S k) (c :: s) = rest).
      { rewrite Hs, Hlen. apply drop_app_length. }
      rewrite re_scan_skip by (cbn in Hle; lia).
      rewrite <- last_char_cons with (prev := prev).
      change (c :: take k s) with (take (S k) (c :: s)).
      change (drop k s) with (drop (S k) (c :: s)).
      rewrite Htake, Hdrop. rewrite Hs at 1.
      apply Scan_hit; [rewrite <- Hs; exact Hat|].
      apply IH. rewrite <- Hdrop, length_drop. cbn in Hn |- *. lia.
    + apply Scan_keep.
      * intros m Hat. apply match_name_complete in Hat. congruence.
      * apply IH. cbn in Hn. lia.
Qed.

(** At one position the pattern has at most one match. *)
Lemma name_at_unique prev s m1 m2 :
  name_at isspace prev s m1 -> name_at isspace prev s m2 -> m1 = m2.
Proof.
  intros H1 H2.
  pose proof (match_name_complete _ _ _ H1) as E1.
  pose proof (match_name_complete _ _ _ H2) as E2.
  rewrite E1 in E2. injection E2 as Hlen.
  destruct H1 as (r1 & Hs1 & _). destruct H2 as (r2 & Hs2 & _).
  rewrite Hs1 in Hs2. apply app_inj_1 in Hs2 as [? _]; assumption.
Qed.




Lemma Scan_source sep prev s ps : Scan sep prev s ps -> source ps = s.
Proof.
  induction 1 as [|prev c s ps _ _ IH|prev m rest ps _ _ IH]; cbn;
    congruence.
Qed.

Lemma Scan_hits sep prev s ps :
  Scan sep prev s ps -> Forall (name_shaped sep) (hits ps).
Proof.
  induction 1 as [|prev c s ps _ _ IH|prev m rest ps Hat _ IH]; cbn; auto.
  constructor; [|assumption]. destruct Hat as (? & _ & Hsh & _). exact Hsh.
Qed.

(** ** Substitution *)

Lemma bind_Return {A B} (m : M A) (k : A -> M B) w a w' :
  m w = (Return a, w') -> bind m k w = k a w'.
Proof. unfold bind. intros ->. reflexivity. Qed.

(** [re.sub] cuts the text into the pieces of the scan, calls the
    replacement once per hit, from left to right, and fills the hits with
    what the calls returned. *)
Lemma re_sub_fill p (repl : text -> M text) (R : World -> text -> World -> Prop) :
  (forall m w, exists r w', repl m w = (Return r, w') /\ R w r w') ->
  forall s skip prev w,
  exists reps w',
    re_sub_from p repl skip prev s w =
      (Return (fill (re_scan_from p skip prev s) reps), w') /\
    Chain R w reps w' /\
    length reps = length (hits (re_scan_from p skip prev s)).
Proof.
  intros Hrepl. induction s as [|c s IH]; intros skip prev w.
  - cbn [re_sub_from re_scan_from].
    destruct (match_at p prev []).
    + destruct (Hrepl [] w) as (r & w' & Hr & HR).
      exists [r], w'. cbn. rewrite app_nil_r.
      repeat split; [exact Hr|]. econstructor; [exact HR|constructor].
    + exists [], w. repeat split. constructor.
  - cbn [re_sub_from re_scan_from]. destruct skip as [|k]; [|apply IH].
    destruct (match_at p prev (c :: s)) as [[|k]|].
    + destruct (Hrepl [] w) as (r & w1 & Hr & HR).
      destruct (IH O (Some c) w1) as (reps & w' & Hs & Hch & Hlen).
      exists (r :: reps), w'.
      rewrite (bind_Return _ _ _ _ _ Hr), (bind_Return _ _ _ _ _ Hs).
      cbn. repeat split; [|lia]. econstructor; eassumption.
    + destruct (Hrepl (take (S k) (c :: s)) w) as (r & w1 & Hr & HR).
      destruct (IH k (Some c) w1) as (reps & w' & Hs & Hch & Hlen).
      exists (r :: reps), w'.
      rewrite (bind_Return _ _ _ _ _ Hr), (bind_Return _ _ _ _ _ Hs).
      cbn. repeat split; [|lia]. econstructor; eassumption.
    + destruct (IH O (Some c) w) as (reps & w' & Hs & Hch & Hlen).
      exists reps, w'. rewrite (bind_Return _ _ _ _ _ Hs).
      cbn. repeat split; assumption.
Qed.

(** ** Pseudonym generation *)

Lemma generate_spec self w :
  names self = [] \/ randbelow_ok ->
  exists r w', _generate_pseudonym self w = (Return r, w') /\
               gen_step self w r w'.
Proof.
  intros Hok. unfold _generate_pseudonym, gen_step.
  destruct (names self) as [|x xs] eqn:Hnames.
  - unfold generator_event.
    destruct (decide (gender self = Some "male"%string));
      [|destruct (decide (gender self = Some "female"%string))];
      unfold draw;
      match goal with
      | |- context [let (_, _) := ?f (rng w) in _] => destruct (f (rng w)) as [r g]
      end;
      eexists _, _; (split; [reflexivity|]); cbn; auto.
  - destruct Hok as [Hnil|Hok]; [discriminate|].
    set (n := length (x :: xs)).
    assert (Hn : (0 < n)%nat) by (subst n; cbn; lia).
    pose proof (Hok n (rng w) Hn) as Hlt.
    unfold bind, draw.
    destruct (randbelow n (rng w)) as [i g] eqn:Hi. cbn in Hlt.
    destruct ((x :: xs) !! i) as [r|] eqn:Hr.
    + exists r. eexists. split; [reflexivity|]. cbn.
      repeat split; auto. eapply list_elem_of_lookup_2, Hr.
    + apply lookup_ge_None in Hr. subst n. cbn in Hr. lia.
Qed.

(** The trace after a chain of generation steps. *)
Lemma gen_chain_frame self w reps w' :
  Chain (gen_step self) w reps w' ->
  files w' = files w /\ threshold w' = threshold w.
Proof.
  induction 1 as [|w r w1 rs w' (Hf & Ht & _) _ [IHf IHt]]; [auto|].
  split; congruence.
Qed.

Lemma gen_chain_choice self w reps w' x xs :
  names self = x :: xs ->
  Chain (gen_step self) w reps w' ->
  Forall (fun r => r ∈ names self) reps /\
  trace w' = trace w ++ replicate (length reps) (EvChoice (length (names self))).
Proof.
  intros Hn. induction 1 as [|w r w1 rs w' (_ & _ & Hstep) _ [IHr IHt]].
  - split; [constructor|]. cbn. rewrite app_nil_r. reflexivity.
  - rewrite Hn in Hstep. destruct Hstep as [Hin Htr].
    split; [constructor; [rewrite Hn|]; assumption|].
    rewrite IHt, Htr, <- app_assoc, Hn. reflexivity.
Qed.


(** [pseudonymize_text] in terms of the scan. *)
Lemma pseudonymize_text_fill self t w :
  names self = [] \/ randbelow_ok ->
  exists reps w',
    pseudonymize_text self t w =
      (Return (fill (re_scan name_pattern t) reps), w') /\
    Chain (gen_step self) w reps w' /\
    length reps = length (hits (re_scan name_pattern t)).
Proof.
  intros Hok. unfold pseudonymize_text, re_sub, re_scan.
  apply re_sub_fill. intros _ w0. apply generate_spec, Hok.
Qed.

(** ** Texts without hits *)

Lemma Scan_hits_at sep prev s ps :
  Scan sep prev s ps ->
  Forall (fun m => exists pre post,
            s = pre ++ m ++ post /\
            name_at sep (last_char prev pre) (m ++ post) m) (hits ps).
Proof.
  induction 1 as [|prev c s ps _ _ IH|prev m rest ps Hat _ IH]; cbn.
  - constructor.
  - eapply Forall_impl; [exact IH|]. cbn.
    intros m (pre & post & -> & Hat). exists (c :: pre), post.
    rewrite last_char_cons. split; [reflexivity|exact Hat].
  - constructor; [exists [], rest; split; [reflexivity|exact Hat]|].
    eapply Forall_impl; [exact IH|]. cbn.
    intros m' (pre & post & -> & Hat'). exists (m ++ pre), post.
    rewrite last_char_app, <- app_assoc. split; [reflexivity|exact Hat'].
Qed.

Lemma no_match_no_hits t :
  no_match isspace t -> hits (re_scan name_pattern t) = [].
Proof.
  intros Hno. pose proof (re_scan_Scan (length t) t None (le_n _)) as Hscan.
  pose proof (Scan_hits_at _ _ _ _ Hscan) as Hat.
  fold (re_scan name_pattern t) in Hat.
  destruct (hits (re_scan name_pattern t)) as [|m ms]; [reflexivity|].
  apply Forall_cons in Hat as [(pre & post & Ht & Hm) _].
  exfalso. apply (Hno pre m post Ht).
  unfold last_char in Hm. destruct (last pre); exact Hm.
Qed.

Lemma no_span_no_match sep t : no_span sep t -> no_match sep t.
Proof.
  intros Hno pre m post Ht (rest & _ & Hsh & _). exact (Hno pre m post Ht Hsh).
Qed.

(** Without a hit no replacement is asked for and nothing changes. *)
Lemma re_sub_no_hits p repl s : forall prev w,
  hits (re_scan_from p O prev s) = [] ->
  re_sub_from p repl O prev s w = (Return s, w).
Proof.
  induction s as [|c s IH]; intros prev w; cbn [re_sub_from re_scan_from].
  - destruct (match_at p prev []); [discriminate|reflexivity].
  - destruct (match_at p prev (c :: s)) as [[|k]|]; try discriminate.
    cbn [hits]. intros Hh. rewrite (bind_Return _ _ _ _ _ (IH _ w Hh)).
    reflexivity.
Qed.

Lemma upper_not_lower c : upper c = true -> lower c = false.
Proof.
  unfold upper, lower. intros Hc. apply andb_true_iff in Hc as [_ H2].
  apply N.leb_le in H2. destruct (N.leb_spec 97 c); [lia|reflexivity].
Qed.

(** A name-shaped span holds a separator and a capital letter. *)
Lemma name_shaped_sep sep m :
  name_shaped sep m -> exists c, c ∈ m /\ sep c = true.
Proof.
  intros (w1 & c & w2 & -> & _ & Hc & _). exists c. split; [|exact Hc].
  apply elem_of_app. right. left.
Qed.

Lemma name_shaped_upper sep m :
  name_shaped sep m -> exists c, c ∈ m /\ upper c = true.
Proof.
  intros (w1 & c & w2 & -> & (u & ls & -> & Hu & _) & _). exists u.
  split; [left|exact Hu].
Qed.

Lemma no_sep_no_span sep t :
  Forall (fun c => sep c = false) t -> no_span sep t.
Proof.
  intros Hall pre m post -> Hsh.
  destruct (name_shaped_sep _ _ Hsh) as (c & Hin & Hc).
  rewrite Forall_forall in Hall. rewrite Hall in Hc; [discriminate|].
  apply elem_of_app. right. apply elem_of_app. left. exact Hin.
Qed.

Lemma no_upper_no_span sep t :
  Forall (fun c => upper c = false) t -> no_span sep t.
Proof.
  intros Hall pre m post -> Hsh.
  destruct (name_shaped_upper _ _ Hsh) as (c & Hin & Hc).
  rewrite Forall_forall in Hall. rewrite Hall in Hc; [discriminate|].
  apply elem_of_app. right. apply elem_of_app. left. exact Hin.
Qed.

(** ** The claims about [pseudonymize_text] *)

(** C1 (as amended).  [pseudonymize_text] cuts the text into kept
    characters and name-shaped spans (a capitalized word, one whitespace
    character in the sense of [\s], a capitalized word, between word
    boundaries) and returns the kept characters unchanged and in order,
    with each span replaced.  A text without any such span is returned as
    it is, and the world is not touched. *)
Theorem pseudonymize_text_frame (self : NamePseudonymizer) (t : text)
    (w : World) :
  (randbelow_ok ->
   exists ps reps w',
     Scan isspace None t ps /\ source ps = t /\
     Forall (name_shaped isspace) (hits ps) /\
     length reps = length (hits ps) /\
     pseudonymize_text self t w = (Return (fill ps reps), w')) /\
  (no_match isspace t -> pseudonymize_text self t w = (Return t, w)).
Proof.
  split.
  - intros Hok.
    destruct (pseudonymize_text_fill self t w (or_intror Hok))
      as (reps & w' & Hrun & _ & Hlen).
    pose proof (re_scan_Scan (length t) t None (le_n _)) as Hscan.
    exists (re_scan name_pattern t), reps, w'.
    split; [exact Hscan|]. split; [eapply Scan_source, Hscan|].
    split; [eapply Scan_hits, Hscan|]. split; assumption.
  - intros Hno. apply re_sub_no_hits. apply no_match_no_hits, Hno.
Qed.


(** C3.  With a non-empty name list every replacement is an entry of the
    list, and the only events the run adds to the trace are choices among
    the list: the synthetic generator is not called. *)
Theorem replacements_from_name_list (self : NamePseudonymizer) (t : text)
    (w : World) :
  names self <> [] ->
  randbelow_ok ->
  exists ps reps w',
    Scan isspace None t ps /\
    pseudonymize_text self t w = (Return (fill ps reps), w') /\
    length reps = length (hits ps) /\
    Forall (fun r => r ∈ names self) reps /\
    trace w' =
      trace w ++ replicate (length reps) (EvChoice (length (names self))) /\
    Forall (fun e => is_synthetic e = false)
           (drop (length (trace w)) (trace w')).
Proof.
  intros Hne Hok.
  destruct (pseudonymize_text_fill self t w (or_intror Hok))
    as (reps & w' & Hrun & Hch & Hlen).
  destruct (names self) as [|x xs] eqn:Hn; [congruence|].
  destruct (gen_chain_choice self w reps w' x xs Hn Hch) as [Hin Htr].
  rewrite Hn in Hin, Htr.
  exists (re_scan name_pattern t), reps, w'.
  split; [exact (re_scan_Scan (length t) t None (le_n _))|].
  repeat split; auto.
  rewrite Htr, drop_app_length. apply Forall_replicate. reflexivity.
Qed.

(** With a single name every replacement is that name. *)
Lemma singleton_fill (self : NamePseudonymizer) (x : text) (t : text)
    (w : World) :
  names self = [x] ->
  randbelow_ok ->
  fst (pseudonymize_text self t w) =
    Return (fill (re_scan name_pattern t)
              (replicate (length (hits (re_scan name_pattern t))) x)).
Proof.
  intros Hn Hok.
  destruct (pseudonymize_text_fill self t w (or_intror Hok))
    as (reps & w' & Hrun & Hch & Hlen).
  destruct (gen_chain_choice self w reps w' x [] Hn Hch) as [Hin _].
  rewrite Hrun. cbn [fst]. do 2 f_equal. rewrite <- Hlen.
  clear -Hin Hn. rewrite Hn in Hin.
  induction Hin as [|r reps Hr _ IH]; [reflexivity|].
  cbn. apply list_elem_of_singleton in Hr. congruence.
Qed.

(** C4.  With the single name "Jordan Lee" the scenario text has the three
    matches "Alice Smith", "New York" and "Bob Jones", and each of them
    becomes "Jordan Lee". *)
Theorem scenario_jordan_lee (self : NamePseudonymizer) (w : World) :
  names self = [of_string "Jordan Lee"] ->
  randbelow_ok ->
  hits (re_scan name_pattern
          (of_string "Alice Smith went to New York with Bob Jones.")) =
    [of_string "Alice Smith"; of_string "New York"; of_string "Bob Jones"] /\
  fst (pseudonymize_text self
         (of_string "Alice Smith went to New York with Bob Jones.") w) =
    Return (of_string "Jordan Lee went to Jordan Lee with Jordan Lee.").
Proof.
  intros Hn Hok. split; [vm_compute; reflexivity|].
  rewrite (singleton_fill self _ _ w Hn Hok). vm_compute. reflexivity.
Qed.

(** C5.  With exactly one name in the list the returned text does not
    depend on the world the run starts in, and so not on the state of the
    random source. *)
Theorem single_name_deterministic (self : NamePseudonymizer) (x : text)
    (t : text) (w1 w2 : World) :
  names self = [x] ->
  randbelow_ok ->
  fst (pseudonymize_text self t w1) = fst (pseudonymize_text self t w2).
Proof.
  intros Hn Hok.
  rewrite (singleton_fill self x t w1 Hn Hok).
  rewrite (singleton_fill self x t w2 Hn Hok). reflexivity.
Qed.

(** ** Construction *)

Lemma truthy_Some path : truthy (Some path) = true <-> path <> EmptyString.
Proof.
  cbn. destruct (String.eqb_spec path EmptyString); cbn; split;
    congruence.
Qed.

Lemma lookup_file_nonempty w path :
  path <> EmptyString -> lookup_file w path = files w !! path.
Proof. unfold lookup_file. intros Hp. case_decide; [contradiction|reflexivity]. Qed.

Lemma add_events_nil w : add_events [] w = w.
Proof. destruct w. unfold add_events. cbn. rewrite app_nil_r. reflexivity. Qed.

Lemma add_events_app evs1 evs2 w :
  add_events evs2 (add_events evs1 w) = add_events (evs1 ++ evs2) w.
Proof. unfold add_events. cbn. rewrite app_assoc. reflexivity. Qed.

Ltac world_eq :=
  unfold add_events, logged; cbn; rewrite <- ?app_assoc; reflexivity.

Lemma logging_run lvl msg w :
  logging lvl msg w = (Return tt, add_events (logged w lvl msg) w).
Proof.
  unfold logging, logged.
  destruct (level_num (threshold w) <=? level_num lvl)%nat;
    [reflexivity|rewrite add_events_nil; reflexivity].
Qed.

(** Without a name list (no path, or the empty path) construction only
    builds the generator. *)
Lemma init_no_list name_list_path g loc w :
  truthy name_list_path = false ->
  __init__ name_list_path g loc w =
    if locale_supported loc
    then (Return (mkNamePseudonymizer [] g loc (mkFaker loc)), w)
    else (Raise (LocaleError loc), w).
Proof.
  intros Hp. unfold __init__, new_Faker, bind.
  destruct (locale_supported loc); [|reflexivity].
  destruct name_list_path as [path|]; [rewrite Hp|]; reflexivity.
Qed.

(** With a path the name list is read right after the generator is
    built. *)
Lemma init_with_list path g loc w :
  path <> EmptyString ->
  locale_supported loc = true ->
  __init__ (Some path) g loc w =
    match files w !! path with
    | Some (Regular data) =>
        match decode (Some "utf-8"%string) data with
        | Some t =>
            (Return (mkNamePseudonymizer
                       (map strip (lines (universal_newlines t)))
                       g loc (mkFaker loc)),
             add_events [EvOpen path false] w)
        | None =>
            (Raise UnicodeError,
             add_events ([EvOpen path false] ++
                         logged w ERROR (NameListReadError UnicodeError)) w)
        end
    | Some Inaccessible =>
        (Raise (OSError path),
         add_events ([EvOpen path false] ++
                     logged w ERROR (NameListReadError (OSError path))) w)
    | None =>
        (Raise (FileNotFoundError path),
         add_events ([EvOpen path false] ++
                     logged w ERROR (NameListNotFound path)) w)
    end.
Proof.
  intros Hp Hloc. apply truthy_Some in Hp as Ht.
  unfold __init__, new_Faker. rewrite Hloc, Ht.
  unfold bind at 1. unfold ret at 1.
  unfold try_except, open_read, bind, emit, lookup_file. cbn.
  case_decide; [contradiction|].
  destruct (files w !! path) as [[data|]|].
  - destruct (decode (Some "utf-8"%string) data) as [t|]; [reflexivity|].
    unfold raise. rewrite logging_run. world_eq.
  - rewrite logging_run. world_eq.
  - rewrite logging_run. world_eq.
Qed.

(** What a pseudonymizer that was constructed looks like. *)
Lemma init_inv name_list_path g loc w self w' :
  __init__ name_list_path g loc w = (Return self, w') ->
  gender self = g /\ locale self = loc /\ fake self = mkFaker loc /\
  locale_supported loc = true.
Proof.
  intros Hi. destruct (truthy name_list_path) eqn:Ht.
  - destruct name_list_path as [path|]; [|discriminate].
    apply truthy_Some in Ht.
    destruct (locale_supported loc) eqn:Hloc.
    + rewrite (init_with_list path g loc w Ht Hloc) in Hi.
      destruct (files w !! path) as [[data|]|]; try discriminate.
      destruct (decode (Some "utf-8"%string) data); [|discriminate].
      injection Hi as <- _. auto.
    + unfold __init__, new_Faker, bind in Hi. rewrite Hloc in Hi.
      discriminate.
  - rewrite (init_no_list _ g loc w Ht) in Hi.
    destruct (locale_supported loc); [|discriminate].
    injection Hi as <- _. auto.
Qed.

(** C7.  A pseudonymizer that was constructed for a locale and has no
    names asks the generator of that locale: its male-name operation for
    gender 'male', its female-name operation for gender 'female', its
    unconstrained operation when the gender is unset. *)
Theorem generator_dispatch (name_list_path g : option string) (loc : string)
    (w w' : World) (self : NamePseudonymizer) (w0 : World) :
  __init__ name_list_path g loc w = (Return self, w') ->
  names self = [] ->
  (g = Some "male"%string ->
   _generate_pseudonym self w0 =
     draw (EvNameMale loc) (fake_name_male loc) w0) /\
  (g = Some "female"%string ->
   _generate_pseudonym self w0 =
     draw (EvNameFemale loc) (fake_name_female loc) w0) /\
  (g = None ->
   _generate_pseudonym self w0 = draw (EvName loc) (fake_name loc) w0).
Proof.
  intros Hi Hn. apply init_inv in Hi as (Hg & _ & Hf & _).
  unfold _generate_pseudonym. rewrite Hn, Hg, Hf. cbn [faker_locale].
  repeat split; intros ->; repeat case_decide; congruence.
Qed.

(** ** Lines and stripping *)

Lemma lines_from_concat t : forall cur,
  concat (lines_from cur t) = cur ++ t.
Proof.
  induction t as [|c t IH]; intros cur; cbn [lines_from].
  - destruct cur; cbn; rewrite ?app_nil_r; reflexivity.
  - destruct (c =? 10) eqn:Hc.
    + apply N.eqb_eq in Hc as ->. cbn [concat]. rewrite IH.
      rewrite <- app_assoc. reflexivity.
    + rewrite IH, <- app_assoc. reflexivity.
Qed.

Lemma snoc_split_feed (cur pre post : text) :
  cur ++ [10] = pre ++ 10 :: post -> post = [] \/ 10 ∈ cur.
Proof.
  destruct post as [|y post _] using rev_ind; [auto|].
  intros Heq. right.
  change (pre ++ 10 :: post ++ [y]) with (pre ++ (10 :: post) ++ [y]) in Heq.
  rewrite app_assoc in Heq. apply app_inj_tail in Heq as [-> _].
  apply elem_of_app. right. left.
Qed.

Lemma lines_from_shape t : forall cur,
  10 ∉ cur ->
  Forall (fun l => l <> [] /\
                   forall pre post, l = pre ++ 10 :: post -> post = [])
         (lines_from cur t).
Proof.
  induction t as [|c t IH]; intros cur Hcur; cbn [lines_from].
  - destruct cur as [|d cur]; constructor; [|constructor].
    split; [discriminate|]. intros pre post Heq. exfalso. apply Hcur.
    rewrite Heq. apply elem_of_app. right. left.
  - destruct (c =? 10) eqn:Hc.
    + apply N.eqb_eq in Hc as ->. constructor.
      * split; [intros Hnil; apply app_eq_nil in Hnil as [_ ?]; discriminate|].
        intros pre post Heq.
        destruct (snoc_split_feed _ _ _ Heq); [assumption|contradiction].
      * apply IH. apply not_elem_of_nil.
    + apply IH. intros Hin. apply elem_of_app in Hin as [?|Hin];
        [contradiction|].
      apply list_elem_of_singleton in Hin. apply N.eqb_neq in Hc. congruence.
Qed.

Lemma lines_from_terminated t : forall cur i l,
  lines_from cur t !! i = Some l ->
  (S i < length (lines_from cur t))%nat ->
  last l = Some 10.
Proof.
  induction t as [|c t IH]; intros cur i l; cbn [lines_from].
  - destruct cur; cbn; intros _ ?; lia.
  - destruct (c =? 10) eqn:Hc; [|apply IH].
    apply N.eqb_eq in Hc as ->. destruct i as [|i]; cbn.
    + intros [= <-] _. apply last_snoc.
    + intros Hl Hlen. eapply IH; [exact Hl|lia].
Qed.

Lemma lines_spec u : lines_of u (lines u).
Proof.
  unfold lines_of, lines. split; [apply lines_from_concat|].
  split; [apply lines_from_shape, not_elem_of_nil|].
  apply lines_from_terminated.
Qed.

Lemma lstrip_spec t :
  exists a, t = a ++ lstrip t /\ Forall (fun c => isspace c = true) a /\
            (forall c, head (lstrip t) = Some c -> isspace c = false).
Proof.
  induction t as [|c t (a & Ht & Ha & Hh)]; cbn [lstrip].
  - exists []. repeat split; [constructor|discriminate].
  - destruct (isspace c) eqn:Hc.
    + exists (c :: a). cbn. rewrite <- Ht. repeat split; auto.
    + exists []. repeat split; [constructor|]. intros d [= <-]. exact Hc.
Qed.

Lemma strip_spec l : stripped_of l (strip l).
Proof.
  unfold strip, rstrip.
  destruct (lstrip_spec l) as (a & Hl & Ha & Hhead).
  destruct (lstrip_spec (reverse (lstrip l))) as (b & Hr & Hb & Hlast).
  set (x := lstrip l) in *. set (y := lstrip (reverse x)) in *.
  assert (Hx : x = reverse y ++ reverse b).
  { rewrite <- reverse_app, <- Hr, reverse_involutive. reflexivity. }
  exists a, (reverse b). split; [rewrite <- Hx; exact Hl|].
  split; [exact Ha|]. split; [apply Forall_reverse, Hb|]. split.
  - intros c Hc. apply Hhead. rewrite Hx.
    destruct (reverse y); [discriminate|exact Hc].
  - intros c Hc. apply Hlast. rewrite last_reverse in Hc. exact Hc.
Qed.

(** C6.  When the file at the name-list path can be read, construction
    succeeds and the name list is the sequence of the lines of the file, in
    order and one entry per line, each line without its surrounding
    whitespace; nothing is filtered out. *)
Theorem name_list_is_stripped_lines (path : string) (g : option string)
    (loc : string) (w : World) (data : bytes) (t : text) :
  lookup_file w path = Some (Regular data) ->
  decode (Some "utf-8"%string) data = Some t ->
  locale_supported loc = true ->
  exists self w' ls,
    __init__ (Some path) g loc w = (Return self, w') /\
    lines_of (universal_newlines t) ls /\
    names self = map strip ls /\
    length (names self) = length ls /\
    Forall2 stripped_of ls (names self).
Proof.
  intros Hfile Hdec Hloc.
  assert (Hp : path <> EmptyString).
  { intros ->. unfold lookup_file in Hfile. case_decide; congruence. }
  rewrite (lookup_file_nonempty w path Hp) in Hfile.
  eexists _, _, (lines (universal_newlines t)).
  rewrite (init_with_list path g loc w Hp Hloc), Hfile, Hdec.
  split; [reflexivity|]. split; [apply lines_spec|]. cbn [names].
  split; [reflexivity|]. split; [apply length_map|].
  apply Forall2_fmap_r, Forall_Forall2_diag, Forall_forall.
  intros l _. apply strip_spec.
Qed.

(** ** The run of [main] *)

Lemma logged_critical w msg : logged w CRITICAL msg = [EvLog CRITICAL msg].
Proof. unfold logged. destruct (threshold w); reflexivity. Qed.

Lemma lookup_file_add_events evs w path :
  lookup_file (add_events evs w) path = lookup_file w path.
Proof. reflexivity. Qed.

Lemma setLevel_warn args w :
  bind (setLevel (log_level args))
       (fun _ =>
          if truthy (name_list args) && truthy (args_gender args)
          then logging WARNING BothGiven else ret tt) w =
    (Return tt, start args w).
Proof.
  unfold bind, setLevel, start.
  destruct (truthy (name_list args) && truthy (args_gender args)).
  - rewrite logging_run. reflexivity.
  - unfold ret. rewrite add_events_nil. reflexivity.
Qed.

Lemma open_read_run path w :
  open_read path w =
    (match lookup_file w path with
     | None => Raise (FileNotFoundError path)
     | Some Inaccessible => Raise (OSError path)
     | Some (Regular data) => Return data
     end, add_events [EvOpen path false] w).
Proof.
  unfold open_read, bind, emit. cbn.
  change (lookup_file _ path) with (lookup_file w path).
  destruct (lookup_file w path) as [[data|]|]; reflexivity.
Qed.

Lemma print_run msg w : print msg w = (Return tt, add_events [EvPrint msg] w).
Proof. reflexivity. Qed.

(** A handler that logs, prints and leaves with status 1. *)
Lemma log_print_exit {A} lvl msg1 msg2 w :
  bind (logging lvl msg1)
       (fun _ => bind (print msg2) (fun _ => @sys_exit _ A 1)) w =
    (Exit 1, add_events (logged w lvl msg1 ++ [EvPrint msg2]) w).
Proof.
  unfold bind. rewrite logging_run, print_run. unfold sys_exit.
  rewrite add_events_app. reflexivity.
Qed.

Lemma print_exit {A} msg w :
  bind (print msg) (fun _ => @sys_exit _ A 1) w =
    (Exit 1, add_events [EvPrint msg] w).
Proof. reflexivity. Qed.

(** [main], stage by stage. *)
Lemma main_unfold args w :
  main args w =
    match __init__ (name_list args) (args_gender args) (args_locale args)
            (start args w) with
    | (Return self, w2) =>
        match lookup_file w2 (input_file args) with
        | None =>
            (Exit 1,
             add_events
               [EvOpen (input_file args) false;
                EvLog CRITICAL
                  (Unexpected (FileNotFoundError (input_file args)));
                EvPrint (Unexpected (FileNotFoundError (input_file args)))]
               w2)
        | Some Inaccessible =>
            (Exit 1,
             add_events
               [EvOpen (input_file args) false;
                EvLog CRITICAL (Unexpected (OSError (input_file args)));
                EvPrint (Unexpected (OSError (input_file args)))]
               w2)
        | Some (Regular raw) =>
            match decode (chardet_detect raw) raw with
            | None =>
                (Exit 1,
                 add_events
                   ([EvOpen (input_file args) false;
                     EvOpen (input_file args) false] ++
                    logged w2 ERROR (InputReadError UnicodeError) ++
                    [EvPrint (InputReadError UnicodeError)])
                   w2)
            | Some t0 =>
                match pseudonymize_text self (universal_newlines t0)
                        (add_events
                           [EvOpen (input_file args) false;
                            EvOpen (input_file args) false] w2) with
                | (Return out, w3) => write_stage args out w3
                | (Raise e, w3) =>
                    (Exit 1,
                     add_events
                       [EvLog CRITICAL (Unexpected e);
                        EvPrint (Unexpected e)] w3)
                | (Exit c, w3) => (Exit c, w3)
                end
            end
        end
    | (Raise e, w2) => (Exit 1, add_events [EvPrint (init_failure e)] w2)
    | (Exit c, w2) => (Exit c, w2)
    end.
Proof.
  unfold main.
  set (init :=
         __init__ (name_list args) (args_gender args) (args_locale args)).
  unfold bind at 1. unfold setLevel at 1. unfold try_except at 1.
  unfold bind at 1.
  pose proof (setLevel_warn args w) as Hstart.
  unfold bind at 1, setLevel at 1 in Hstart.
  rewrite Hstart.
  unfold bind at 1. unfold try_except at 1.
  destruct (init (start args w)) as [[self|e|c] w2] eqn:Hinit.
  - unfold bind at 1. rewrite open_read_run.
    destruct (lookup_file w2 (input_file args)) as [[raw|]|] eqn:Hin.
    + unfold bind at 1. unfold try_except at 1. unfold read_text.
      unfold bind at 1. rewrite open_read_run, lookup_file_add_events, Hin.
      rewrite add_events_app. cbn [app].
      destruct (decode (chardet_detect raw) raw) as [t0|].
      * unfold ret at 1. unfold bind at 1.
        destruct (pseudonymize_text self (universal_newlines t0) _)
          as [[out|e|c] w3]; [reflexivity| |reflexivity].
        rewrite log_print_exit, logged_critical. reflexivity.
      * unfold raise at 1. rewrite log_print_exit, add_events_app.
        reflexivity.
    + rewrite log_print_exit, logged_critical, add_events_app. reflexivity.
    + rewrite log_print_exit, logged_critical, add_events_app. reflexivity.
  - destruct e; rewrite print_exit; reflexivity.
  - reflexivity.
Qed.

Lemma lookup_file_files w1 w2 path :
  files w1 = files w2 -> lookup_file w1 path = lookup_file w2 path.
Proof. unfold lookup_file. intros ->. reflexivity. Qed.

Lemma files_start args w : files (start args w) = files w.
Proof. reflexivity. Qed.

Lemma threshold_start args w : threshold (start args w) = log_level args.
Proof. reflexivity. Qed.

(** Construction returns or raises; it only reads, and what it adds to the
    trace opens nothing for writing. *)
Lemma init_frame name_list_path g loc w o w' :
  __init__ name_list_path g loc w = (o, w') ->
  (forall c, o <> Exit c) /\
  exists evs, w' = add_events evs w /\
              Forall (fun e => forall q, e <> EvOpen q true) evs.
Proof.
  intros Hi. destruct (truthy name_list_path) eqn:Ht.
  - destruct name_list_path as [path|]; [|discriminate].
    apply truthy_Some in Ht.
    destruct (locale_supported loc) eqn:Hloc.
    + rewrite (init_with_list path g loc w Ht Hloc) in Hi.
      destruct (files w !! path) as [[data|]|];
        [destruct (decode (Some "utf-8"%string) data)| |];
        injection Hi as <- <-; (split; [discriminate|]);
        eexists; (split; [reflexivity|]);
        unfold logged;
        try destruct (level_num (threshold w) <=? level_num ERROR)%nat;
        repeat constructor; discriminate.
    + unfold __init__, new_Faker, bind in Hi. rewrite Hloc in Hi.
      injection Hi as <- <-. split; [discriminate|].
      exists []. rewrite add_events_nil. split; [reflexivity|constructor].
  - rewrite (init_no_list _ g loc w Ht) in Hi.
    destruct (locale_supported loc); injection Hi as <- <-;
      (split; [discriminate|]); exists []; rewrite add_events_nil;
      (split; [reflexivity|constructor]).
Qed.

Lemma start_events args w :
  exists evs, start args w =
                add_events evs
                  (mkWorld (files w) (rng w) (log_level args) (trace w)) /\
              Forall (fun e => forall q, e <> EvOpen q true) evs.
Proof.
  unfold start. eexists. split; [reflexivity|].
  destruct (truthy (name_list args) && truthy (args_gender args));
    [|constructor].
  unfold logged. destruct (level_num _ <=? level_num _)%nat;
    repeat constructor; discriminate.
Qed.

(** C8 (as amended).  If the input file does not exist, [main] leaves with
    status 1, the file system is what it was and nothing was opened for
    writing.  When the pseudonymizer could be constructed, the run ends
    with the failed open of the input file and the FileNotFound error
    logged and printed; when construction failed, the run ended there,
    with the message of that failure printed. *)
Theorem missing_input_exits (args : Args) (w : World) :
  lookup_file w (input_file args) = None ->
  exists o w',
    main args w = (o, w') /\
    exit_status o = 1%Z /\
    files w' = files w /\
    Forall (fun e => forall q, e <> EvOpen q true)
           (drop (length (trace w)) (trace w')) /\
    (forall self w2,
       __init__ (name_list args) (args_gender args) (args_locale args)
         (start args w) = (Return self, w2) ->
       w' = add_events
              [EvOpen (input_file args) false;
               EvLog CRITICAL
                 (Unexpected (FileNotFoundError (input_file args)));
               EvPrint (Unexpected (FileNotFoundError (input_file args)))]
              w2) /\
    (forall e w2,
       __init__ (name_list args) (args_gender args) (args_locale args)
         (start args w) = (Raise e, w2) ->
       w' = add_events [EvPrint (init_failure e)] w2).
Proof.
  intros Hin. rewrite main_unfold.
  destruct (start_events args w) as (evs0 & Hstart & Hevs0).
  destruct (__init__ (name_list args) (args_gender args) (args_locale args)
              (start args w)) as [o2 w2] eqn:Hinit.
  destruct (init_frame _ _ _ _ _ _ Hinit) as (Hexit & evs & Hw2 & Hevs).
  assert (Hfiles : files w2 = files w) by (rewrite Hw2; reflexivity).
  assert (Htrace : trace w2 = trace w ++ evs0 ++ evs).
  { rewrite Hw2, Hstart. cbn. rewrite <- app_assoc. reflexivity. }
  destruct o2 as [self|e|c]; [| |destruct (Hexit c eq_refl)].
  - rewrite (lookup_file_files w2 w _ Hfiles), Hin.
    eexists _, _. split; [reflexivity|]. split; [reflexivity|].
    split; [exact Hfiles|]. split; [|split].
    + cbn [trace add_events]. rewrite Htrace, <- !app_assoc, drop_app_length.
      repeat (apply Forall_app; split); auto;
        repeat constructor; discriminate.
    + intros self' w2' [= _ <-]. reflexivity.
    + intros e' w2' [=].
  - eexists _, _. split; [reflexivity|]. split; [reflexivity|].
    split; [exact Hfiles|]. split; [|split].
    + cbn [trace add_events]. rewrite Htrace, <- !app_assoc, drop_app_length.
      repeat (apply Forall_app; split); auto;
        repeat constructor; discriminate.
    + intros self' w2' [=].
    + intros e' w2' [= <- <-]. reflexivity.
Qed.

(** C9 (as amended).  If a non-empty name-list path is given and no file
    exists there, construction raises, and [main] leaves with status 1
    after printing the error, without opening the input file: the run adds
    no event after the failure but the printed error.  The error is
    FileNotFoundError, raised after the failed open of the name list and
    its error record, when the generator accepts the locale; it is the
    error of the locale, raised before any file is opened, when it does
    not. *)
Theorem missing_name_list_exits (args : Args) (w : World) (path : string) :
  name_list args = Some path ->
  path <> EmptyString ->
  lookup_file w path = None ->
  exists e w2,
    __init__ (name_list args) (args_gender args) (args_locale args)
      (start args w) = (Raise e, w2) /\
    main args w = (Exit 1, add_events [EvPrint (init_failure e)] w2) /\
    (locale_supported (args_locale args) = true ->
     e = FileNotFoundError path /\
     init_failure e = ErrorMsg (FileNotFoundError path) /\
     w2 = add_events
            ([EvOpen path false] ++
             logged (start args w) ERROR (NameListNotFound path))
            (start args w)) /\
    (locale_supported (args_locale args) = false ->
     e = LocaleError (args_locale args) /\ w2 = start args w) /\
    trace (start args w) =
      trace w ++
      (if truthy (args_gender args)
       then logged (start args w) WARNING BothGiven else []) /\
    Forall (fun ev => forall q b, ev = EvOpen q b -> q = path /\ b = false)
           (drop (length (trace w)) (trace w2 ++ [EvPrint (init_failure e)])).
Proof.
  intros Hnl Hp Hmiss.
  rewrite (lookup_file_nonempty w path Hp) in Hmiss.
  assert (Hstart : trace (start args w) =
    trace w ++
    (if truthy (args_gender args)
     then logged (start args w) WARNING BothGiven else [])).
  { unfold start. rewrite Hnl. apply truthy_Some in Hp. rewrite Hp.
    cbn [andb]. destruct (truthy (args_gender args)); reflexivity. }
  assert (Hwarn : Forall
    (fun ev => forall q b, ev = EvOpen q b -> q = path /\ b = false)
    (if truthy (args_gender args)
     then logged (start args w) WARNING BothGiven else [])).
  { destruct (truthy (args_gender args)); [|constructor].
    unfold logged. destruct (_ <=? _)%nat; repeat constructor; discriminate. }
  destruct (locale_supported (args_locale args)) eqn:Hloc.
  - assert (Hinit :
      __init__ (name_list args) (args_gender args) (args_locale args)
        (start args w) =
        (Raise (FileNotFoundError path),
         add_events
           ([EvOpen path false] ++
            logged (start args w) ERROR (NameListNotFound path))
           (start args w))).
    { rewrite Hnl, (init_with_list path _ _ _ Hp Hloc).
      rewrite files_start, Hmiss. reflexivity. }
    eexists _, _. split; [exact Hinit|].
    split; [rewrite main_unfold, Hinit; reflexivity|].
    split; [auto|]. split; [discriminate|]. split; [exact Hstart|].
    cbn [trace add_events]. rewrite Hstart, <- !app_assoc, drop_app_length.
    repeat (apply Forall_app; split); [exact Hwarn| | |].
    + constructor; [|constructor]. intros q b [= <- <-]. auto.
    + unfold logged. destruct (_ <=? _)%nat; repeat constructor;
        discriminate.
    + repeat constructor; discriminate.
  - assert (Hinit :
      __init__ (name_list args) (args_gender args) (args_locale args)
        (start args w) = (Raise (LocaleError (args_locale args)), start args w)).
    { unfold __init__, new_Faker, bind. rewrite Hloc. reflexivity. }
    eexists _, _. split; [exact Hinit|].
    split; [rewrite main_unfold, Hinit; reflexivity|].
    split; [discriminate|]. split; [auto|]. split; [exact Hstart|].
    rewrite Hstart, <- !app_assoc, drop_app_length.
    apply Forall_app. split; [exact Hwarn|].
    repeat constructor; discriminate.
Qed.


End Theory.

(** * Further properties of the code *)

Section Further.

Context {E : Collaborators}.

(** The characters [re.sub] passes through. *)
Fixpoint kept (ps : list piece) : text :=
  match ps with
  | [] => []
  | Keep c :: ps' => c :: kept ps'
  | Hit _ :: ps' => kept ps'
  end.

(** Two worlds that differ at most in the level of the root logger and in
    the log records of the trace. *)
Definition is_log (e : event) : bool :=
  match e with EvLog _ _ => true | _ => false end.

Definition unlogged (tr : list event) : list event :=
  filter (fun e => is_log e = false) tr.

Definition same_but_logs (w1 w2 : World) : Prop :=
  files w1 = files w2 /\ rng w1 = rng w2 /\
  unlogged (trace w1) = unlogged (trace w2).

(** Two computations are related when from related worlds they come to
    the same outcome in related worlds. *)
Definition related {A} (R : World -> World -> Prop) (m1 m2 : M A) : Prop :=
  forall w1 w2, R w1 w2 ->
    fst (m1 w1) = fst (m2 w2) /\ R (snd (m1 w1)) (snd (m2 w2)).

(** ** [str.strip] *)

Lemma lstrip_id r :
  (forall c, head r = Some c -> isspace c = false) -> lstrip r = r.
Proof.
  destruct r as [|c r]; [reflexivity|]. intros Hh. cbn.
  rewrite (Hh c eq_refl). reflexivity.
Qed.

Lemma rstrip_id r :
  (forall c, last r = Some c -> isspace c = false) -> rstrip r = r.
Proof.
  intros Hl. unfold rstrip. rewrite lstrip_id.
  - apply reverse_involutive.
  - intros c Hc. apply Hl. rewrite head_reverse in Hc. exact Hc.
Qed.

Lemma lstrip_all_space l :
  Forall (fun c => isspace c = true) l -> lstrip l = [].
Proof.
  induction 1 as [|c l Hc _ IH]; [reflexivity|]. cbn. rewrite Hc. exact IH.
Qed.

(** Stripping twice is stripping once. *)
Lemma strip_idempotent (l : text) : strip (strip l) = strip l.
Proof.
  destruct (strip_spec l) as (a & b & _ & _ & _ & Hh & Hl).
  unfold strip at 1. rewrite (lstrip_id _ Hh). apply rstrip_id, Hl.
Qed.

(** X1.  A line is stripped to the empty string exactly when it consists of
    whitespace only. *)
Theorem strip_nil_iff (l : text) :
  strip l = [] <-> Forall (fun c => isspace c = true) l.
Proof.
  split.
  - intros Hs. destruct (strip_spec l) as (a & b & Hl & Ha & Hb & _).
    rewrite Hs in Hl. rewrite Hl. apply Forall_app. split; assumption.
  - intros Hall. unfold strip. rewrite (lstrip_all_space l Hall).
    reflexivity.
Qed.

(** ** Newlines *)

Lemma universal_newlines_no_cr_aux n : forall t,
  (length t <= n)%nat -> 13 ∉ universal_newlines t.
Proof.
  induction n as [|n IH]; intros t Hn.
  - destruct t; [apply not_elem_of_nil|cbn in Hn; lia].
  - destruct t as [|c t]; [apply not_elem_of_nil|].
    cbn [universal_newlines]. cbn in Hn.
    destruct (c =? 13) eqn:Hc.
    + apply not_elem_of_cons. split; [discriminate|].
      destruct t as [|d t]; [apply not_elem_of_nil|].
      destruct (d =? 10); apply IH; cbn in Hn |- *; lia.
    + apply not_elem_of_cons. split; [|apply IH; lia].
      apply N.eqb_neq in Hc. congruence.
Qed.

Lemma universal_newlines_id t : 13 ∉ t -> universal_newlines t = t.
Proof.
  induction t as [|c t IH]; [reflexivity|]. intros Hnot.
  apply not_elem_of_cons in Hnot as [Hc Ht]. cbn [universal_newlines].
  destruct (N.eqb_spec c 13) as [->|_]; [congruence|].
  rewrite (IH Ht). reflexivity.
Qed.

(** X2.  Reading in text mode translates the line ends: a carriage return
    followed by a line feed becomes one line feed, a carriage return alone
    becomes a line feed, every other character is kept.  So the text read
    holds no carriage return, a text without carriage returns is read as
    it is, and translating twice changes nothing more. *)
Theorem universal_newlines_normalizes (t : text) :
  universal_newlines [] = [] /\
  universal_newlines (13 :: 10 :: t) = 10 :: universal_newlines t /\
  (head t <> Some 10 ->
   universal_newlines (13 :: t) = 10 :: universal_newlines t) /\
  (forall c, c <> 13 ->
             universal_newlines (c :: t) = c :: universal_newlines t) /\
  (13 ∉ universal_newlines t) /\
  (13 ∉ t -> universal_newlines t = t) /\
  universal_newlines (universal_newlines t) = universal_newlines t.
Proof.
  pose proof (universal_newlines_no_cr_aux (length t) t (le_n _)) as Hno.
  split; [reflexivity|]. split; [reflexivity|]. split; [|split].
  - intros Hh. cbn [universal_newlines]. cbn.
    destruct t as [|d t]; [reflexivity|].
    destruct (N.eqb_spec d 10) as [->|_]; [contradiction|reflexivity].
  - intros c Hc. cbn [universal_newlines].
    destruct (N.eqb_spec c 13); [contradiction|reflexivity].
  - split; [exact Hno|]. split; [apply universal_newlines_id|].
    apply universal_newlines_id, Hno.
Qed.

(** X3.  A text without carriage returns that is written in text mode and read
    back in text mode is the text again, whether the platform ends lines
    with a line feed or with carriage return and line feed. *)
Theorem newline_round_trip (t : text) :
  os_linesep = [10] \/ os_linesep = [13; 10] ->
  13 ∉ t ->
  universal_newlines (translate_newlines t) = t.
Proof.
  intros Hsep. unfold translate_newlines.
  destruct Hsep as [-> | ->];
    (induction t as [|c t IH]; [reflexivity|]; intros Hnot;
     apply not_elem_of_cons in Hnot as [Hc Ht]; specialize (IH Ht);
     cbn [flat_map]; destruct (N.eqb_spec c 10) as [->|Hc10];
     [cbn; rewrite IH; reflexivity|];
     cbn [app universal_newlines];
     destruct (N.eqb_spec c 13) as [->|_]; [congruence|];
     rewrite IH; reflexivity).
Qed.

(** Only the empty text has no lines. *)
Lemma lines_from_nil t : forall cur, lines_from cur t = [] -> cur = [] /\ t = [].
Proof.
  induction t as [|c t IH]; intros cur; cbn [lines_from].
  - destruct cur; [auto|discriminate].
  - destruct (c =? 10); [discriminate|]. intros Hl.
    apply IH in Hl as [Hl _]. apply app_eq_nil in Hl as [_ ?]. discriminate.
Qed.

Lemma lines_nil_iff u : lines u = [] <-> u = [].
Proof.
  split; [intros Hl; apply (lines_from_nil u []), Hl|intros ->; reflexivity].
Qed.

Lemma universal_newlines_nil_iff t : universal_newlines t = [] <-> t = [].
Proof.
  split; [|intros ->; reflexivity].
  destruct t as [|c t]; [reflexivity|]. cbn [universal_newlines].
  destruct (c =? 13); discriminate.
Qed.

Lemma lstrip_snoc l c :
  lstrip (l ++ [c]) =
    if forallb isspace l then lstrip [c] else lstrip l ++ [c].
Proof.
  induction l as [|d l IH]; [reflexivity|]. cbn.
  destruct (isspace d); [exact IH|reflexivity].
Qed.

Lemma lstrip_forallb l : forallb isspace l = true -> lstrip l = [].
Proof.
  induction l as [|d l IH]; [reflexivity|]. cbn.
  destruct (isspace d); [exact IH|discriminate].
Qed.

Lemma strip_snoc_space l c : isspace c = true -> strip (l ++ [c]) = strip l.
Proof.
  intros Hc. unfold strip. rewrite lstrip_snoc.
  destruct (forallb isspace l) eqn:Hall.
  - cbn. rewrite Hc, (lstrip_forallb l Hall). reflexivity.
  - unfold rstrip. rewrite reverse_snoc. cbn [lstrip]. rewrite Hc.
    reflexivity.
Qed.

Lemma lines_from_final_feed t : forall cur,
  cur ++ t <> [] -> last (cur ++ t) <> Some 10 ->
  exists ls l,
    lines_from cur t = ls ++ [l] /\
    lines_from cur (t ++ [10]) = ls ++ [l ++ [10]].
Proof.
  induction t as [|c t IH]; intros cur Hne Hlast.
  - rewrite app_nil_r in Hne. exists [], cur. cbn.
    destruct cur; [congruence|]. auto.
  - cbn [lines_from app]. destruct (N.eqb_spec c 10) as [->|Hc].
    + destruct (IH []) as (ls & l & H1 & H2).
      * cbn. intros ->. apply Hlast. rewrite last_snoc. reflexivity.
      * cbn. intros Hl. apply Hlast.
        rewrite last_app, last_cons, Hl. reflexivity.
      * exists ((cur ++ [10]) :: ls), l. rewrite H1, H2. auto.
    + destruct (IH (cur ++ [c])) as (ls & l & H1 & H2).
      * intros Hnil. apply app_eq_nil in Hnil as [Hnil _].
        apply app_eq_nil in Hnil as [_ ?]. discriminate.
      * rewrite <- app_assoc. exact Hlast.
      * exists ls, l. auto.
Qed.

Lemma lines_from_extra_feed t : forall cur,
  10 ∉ cur ->
  cur ++ t = [] \/ last (cur ++ t) = Some 10 ->
  lines_from cur (t ++ [10]) = lines_from cur t ++ [[10]].
Proof.
  induction t as [|c t IH]; intros cur Hcur Hend.
  - rewrite app_nil_r in Hend. destruct cur as [|d cur]; [reflexivity|].
    exfalso. destruct Hend as [?|Hl]; [discriminate|].
    apply Hcur. apply last_Some in Hl as (l' & ->).
    apply elem_of_app. right. left.
  - cbn [lines_from app]. destruct (N.eqb_spec c 10) as [->|Hc].
    + rewrite (IH []); [reflexivity|apply not_elem_of_nil|].
      destruct Hend as [Hnil|Hl].
      * apply app_eq_nil in Hnil as [_ ?]. discriminate.
      * cbn. destruct t as [|d t]; [left; reflexivity|right].
        rewrite last_app in Hl. cbn in Hl.
        destruct (last (d :: t)) eqn:Hd; [exact Hl|].
        apply last_None in Hd. discriminate.
    + apply IH.
      * intros Hin. apply elem_of_app in Hin as [?|Hin]; [contradiction|].
        apply list_elem_of_singleton in Hin. congruence.
      * right. destruct Hend as [Hnil|Hl].
        -- apply app_eq_nil in Hnil as [_ ?]. discriminate.
        -- rewrite <- app_assoc. exact Hl.
Qed.

(** X4.  A line feed appended to the name-list text: when the text is not
    empty and does not end with a line feed already, it adds no entry and
    changes none; when the text is empty or ends with a line feed, it adds
    one empty entry at the end. *)
Theorem final_newline_irrelevant (u : text) :
  (u <> [] -> last u <> Some 10 ->
   map strip (lines (u ++ [10])) = map strip (lines u)) /\
  (u = [] \/ last u = Some 10 ->
   map strip (lines (u ++ [10])) = map strip (lines u) ++ [[]]).
Proof.
  split.
  - intros Hne Hlast. unfold lines.
    destruct (lines_from_final_feed u [] Hne Hlast) as (ls & l & -> & ->).
    rewrite !map_app. cbn. rewrite strip_snoc_space by reflexivity.
    reflexivity.
  - intros Hend. unfold lines.
    rewrite (lines_from_extra_feed u [] (not_elem_of_nil _) Hend).
    rewrite map_app. reflexivity.
Qed.

(** ** The detection pattern *)

(** X5.  The pattern matches at a position exactly when a name-shaped span
    between word boundaries starts there; the match is that span, whole,
    and there is no other. *)
Theorem name_pattern_matches_iff (prev : option N) (s : text) (n : nat) :
  match_at name_pattern prev s = Some n <->
  exists m, name_at isspace prev s m /\ n = length m /\
            m = take n s /\
            (forall m', name_at isspace prev s m' -> m' = m).
Proof.
  split.
  - intros Hm. destruct (match_name_sound _ _ _ Hm) as (m & Hat & Hn).
    exists m. split; [exact Hat|]. split; [exact Hn|]. split.
    + destruct Hat as (rest & -> & _). rewrite Hn, take_app_length.
      reflexivity.
    + intros m' Hat'. exact (name_at_unique _ _ _ _ Hat' Hat).
  - intros (m & Hat & -> & _). apply match_name_complete, Hat.
Qed.

(** ** Construction *)

(** X6.  Construction succeeds exactly when the generator accepts the locale
    and, if a non-empty name-list path is given, the file there can be read
    and decoded as UTF-8. *)
Theorem construction_succeeds_iff (name_list_path g : option string)
    (loc : string) (w : World) :
  (exists self w', __init__ name_list_path g loc w = (Return self, w')) <->
  locale_supported loc = true /\
  (truthy name_list_path = true ->
   exists path data t,
     name_list_path = Some path /\
     files w !! path = Some (Regular data) /\
     decode (Some "utf-8"%string) data = Some t).
Proof.
  split.
  - intros (self & w' & Hi).
    pose proof (init_inv _ _ _ _ _ _ Hi) as (_ & _ & _ & Hloc).
    split; [exact Hloc|]. intros Ht.
    destruct name_list_path as [path|]; [|discriminate].
    apply truthy_Some in Ht.
    rewrite (init_with_list path g loc w Ht Hloc) in Hi.
    destruct (files w !! path) as [[data|]|] eqn:Hf; try discriminate.
    destruct (decode (Some "utf-8"%string) data) as [t|] eqn:Hd;
      [|discriminate].
    exists path, data, t. auto.
  - intros [Hloc Hnl]. destruct (truthy name_list_path) eqn:Ht.
    + destruct (Hnl eq_refl) as (path & data & t & -> & Hf & Hd).
      apply truthy_Some in Ht.
      rewrite (init_with_list path g loc w Ht Hloc), Hf, Hd. eauto.
    + rewrite (init_no_list _ g loc w Ht), Hloc. eauto.
Qed.

(** X7.  When construction fails it raises: the error of the locale first, with
    no file opened; otherwise the error of opening or decoding the name
    list, after the attempt to open it and its error record. *)
Theorem construction_errors (name_list_path g : option string)
    (loc : string) (w : World) (o : outcome NamePseudonymizer) (w' : World) :
  __init__ name_list_path g loc w = (o, w') ->
  (forall self, o <> Return self) ->
  (locale_supported loc = false /\ o = Raise (LocaleError loc) /\ w' = w) \/
  (locale_supported loc = true /\
   exists path e,
     name_list_path = Some path /\ path <> EmptyString /\
     o = Raise e /\
     w' = add_events
            ([EvOpen path false] ++
             logged w ERROR
               (match e with
                | FileNotFoundError _ => NameListNotFound path
                | _ => NameListReadError e
                end)) w /\
     ((files w !! path = None /\ e = FileNotFoundError path) \/
      (files w !! path = Some Inaccessible /\ e = OSError path) \/
      (exists data, files w !! path = Some (Regular data) /\
                    decode (Some "utf-8"%string) data = None /\
                    e = UnicodeError))).
Proof.
  intros Hi Hfail. destruct (locale_supported loc) eqn:Hloc.
  - right. split; [reflexivity|]. destruct (truthy name_list_path) eqn:Ht.
    + destruct name_list_path as [path|]; [|discriminate].
      apply truthy_Some in Ht.
      rewrite (init_with_list path g loc w Ht Hloc) in Hi.
      destruct (files w !! path) as [[data|]|] eqn:Hf.
      * destruct (decode (Some "utf-8"%string) data) as [t|] eqn:Hd;
          injection Hi as <- <-; [destruct (Hfail _ eq_refl)|].
        exists path, UnicodeError. repeat split; eauto 10.
      * injection Hi as <- <-. exists path, (OSError path).
        repeat split; eauto 10.
      * injection Hi as <- <-. exists path, (FileNotFoundError path).
        repeat split; eauto 10.
    + rewrite (init_no_list _ g loc w Ht), Hloc in Hi.
      injection Hi as <- <-. destruct (Hfail _ eq_refl).
  - left. unfold __init__, new_Faker, bind in Hi. rewrite Hloc in Hi.
    injection Hi as <- <-. auto.
Qed.

(** X8.  The name list read from a file is empty exactly when the file holds no
    text at all: only then does the generator stand in for the list. *)
Theorem name_list_empty_iff (path : string) (g : option string)
    (loc : string) (w : World) (data : bytes) (t : text) :
  lookup_file w path = Some (Regular data) ->
  decode (Some "utf-8"%string) data = Some t ->
  locale_supported loc = true ->
  exists self w',
    __init__ (Some path) g loc w = (Return self, w') /\
    (names self = [] <-> t = []).
Proof.
  intros Hfile Hdec Hloc.
  assert (Hp : path <> EmptyString).
  { intros ->. unfold lookup_file in Hfile. case_decide; congruence. }
  rewrite (lookup_file_nonempty w path Hp) in Hfile.
  eexists _, _. rewrite (init_with_list path g loc w Hp Hloc), Hfile, Hdec.
  split; [reflexivity|]. cbn [names].
  rewrite <- universal_newlines_nil_iff, <- lines_nil_iff.
  split; [apply fmap_nil_inv|intros ->; reflexivity].
Qed.

Lemma elem_of_line u l c : l ∈ lines u -> c ∈ l -> c ∈ u.
Proof.
  intros Hl Hc. destruct (lines_spec u) as (Hcat & _). rewrite <- Hcat.
  apply list_elem_of_In, in_concat. exists l.
  split; apply list_elem_of_In; assumption.
Qed.

Lemma strip_no_feed u l : l ∈ lines u -> 10 ∉ strip l.
Proof.
  intros Hl Hin. destruct (lines_spec u) as (_ & Hshape & _).
  rewrite Forall_forall in Hshape. destruct (Hshape l Hl) as [_ Hend].
  destruct (strip_spec l) as (a & b & Heq & _ & _ & _ & Hlast).
  apply list_elem_of_split in Hin as (pre & post & Hr).
  assert (Hpost : post ++ b = []).
  { apply (Hend (a ++ pre)). rewrite Heq, Hr, <- !app_assoc. reflexivity. }
  apply app_eq_nil in Hpost as [-> _].
  specialize (Hlast 10). rewrite Hr, last_snoc in Hlast.
  specialize (Hlast eq_refl). discriminate.
Qed.

Lemma strip_part l c : c ∈ strip l -> c ∈ l.
Proof.
  intros Hc. destruct (strip_spec l) as (a & b & Heq & _).
  rewrite Heq. apply elem_of_app. right. apply elem_of_app. left. exact Hc.
Qed.

(** X9.  Every entry of the name list of a constructed pseudonymizer is
    stripped: it neither starts nor ends with whitespace, and it holds
    neither a line feed nor a carriage return. *)
Theorem name_entries_clean (name_list_path g : option string) (loc : string)
    (w w' : World) (self : NamePseudonymizer) :
  __init__ name_list_path g loc w = (Return self, w') ->
  Forall (fun x =>
            (strip x = x) /\
            (forall c, head x = Some c -> isspace c = false) /\
            (forall c, last x = Some c -> isspace c = false) /\
            (10 ∉ x) /\ (13 ∉ x))
         (names self).
Proof.
  intros Hi.
  pose proof (init_inv _ _ _ _ _ _ Hi) as (_ & _ & _ & Hloc).
  destruct (truthy name_list_path) eqn:Ht.
  - destruct name_list_path as [path|]; [|discriminate].
    apply truthy_Some in Ht.
    rewrite (init_with_list path g loc w Ht Hloc) in Hi.
    destruct (files w !! path) as [[data|]|]; try discriminate.
    destruct (decode (Some "utf-8"%string) data) as [t|]; [|discriminate].
    injection Hi as <- _. cbn [names].
    apply Forall_fmap, Forall_forall. intros l Hl. cbn.
    destruct (strip_spec l) as (a & b & _ & _ & _ & Hh & Hlast).
    split; [unfold strip at 1; rewrite (lstrip_id _ Hh);
            apply rstrip_id, Hlast|].
    split; [exact Hh|].
    split; [exact Hlast|]. split; [eapply strip_no_feed, Hl|].
    intros Hcr. apply strip_part in Hcr.
    apply (universal_newlines_no_cr_aux (length t) t (le_n _)).
    eapply elem_of_line; eassumption.
  - rewrite (init_no_list _ g loc w Ht), Hloc in Hi.
    injection Hi as <- _. constructor.
Qed.

(** ** Substitution *)

Lemma capitalized_length wd : capitalized wd -> (2 <= length wd)%nat.
Proof.
  intros (u & ls & -> & _ & Hne & _). destruct ls; [congruence|cbn; lia].
Qed.

Lemma name_shaped_length sep m : name_shaped sep m -> (5 <= length m)%nat.
Proof.
  intros (w1 & c & w2 & -> & H1 & _ & H2).
  apply capitalized_length in H1, H2. rewrite length_app. cbn. lia.
Qed.

Lemma short_no_span sep t : (length t < 5)%nat -> no_span sep t.
Proof.
  intros Hlen pre m post -> Hsh. apply name_shaped_length in Hsh.
  rewrite !length_app in Hlen. lia.
Qed.

(** X10.  A text that has no capital A-Z, or no whitespace, or fewer than five
    characters (the empty text among them) is returned as it is, and the
    world is not touched: no pseudonym is generated. *)
Theorem unchanged_without_name_material (self : NamePseudonymizer)
    (t : text) (w : World) :
  Forall (fun c => upper c = false) t \/
  Forall (fun c => isspace c = false) t \/
  (length t < 5)%nat ->
  pseudonymize_text self t w = (Return t, w).
Proof.
  intros Hcase. apply re_sub_no_hits, no_match_no_hits, no_span_no_match.
  destruct Hcase as [Hu|[Hs|Hl]].
  - apply no_upper_no_span, Hu.
  - apply no_sep_no_span, Hs.
  - apply short_no_span, Hl.
Qed.

Lemma re_sub_ext p (repl1 repl2 : text -> M text) :
  (forall m w, repl1 m w = repl2 m w) ->
  forall s skip prev w,
    re_sub_from p repl1 skip prev s w = re_sub_from p repl2 skip prev s w.
Proof.
  intros Hext. induction s as [|c s IH]; intros skip prev w;
    cbn [re_sub_from].
  - destruct (match_at p prev []); [apply Hext|reflexivity].
  - destruct skip as [|k]; [|apply IH].
    destruct (match_at p prev (c :: s)) as [[|k]|]; unfold bind;
      rewrite ?Hext;
      try (destruct (repl2 _ w) as [[r|e|x] w1]; [|reflexivity..]);
      rewrite IH; reflexivity.
Qed.

(** X11.  With a non-empty name list the gender, the locale and the generator
    object play no part: two pseudonymizers with the same names run
    alike. *)
Theorem gender_ignored_with_names (self1 self2 : NamePseudonymizer)
    (t : text) (w : World) :
  names self1 = names self2 ->
  names self1 <> [] ->
  pseudonymize_text self1 t w = pseudonymize_text self2 t w.
Proof.
  intros Heq Hne. unfold pseudonymize_text, re_sub. apply re_sub_ext.
  intros _ w0. unfold _generate_pseudonym. rewrite <- Heq.
  destruct (names self1); [congruence|reflexivity].
Qed.

Lemma hits_bound sep ps :
  Forall (name_shaped sep) (hits ps) ->
  (5 * length (hits ps) <= length (source ps))%nat.
Proof.
  induction ps as [|[c|m] ps IH]; cbn [hits source]; intros Hall.
  - cbn. lia.
  - specialize (IH Hall). cbn. lia.
  - apply Forall_cons in Hall as [Hm Hall]. specialize (IH Hall).
    apply name_shaped_length in Hm. rewrite length_app. cbn [length]. lia.
Qed.

Lemma gen_chain_trace self w reps w' :
  Chain (gen_step self) w reps w' ->
  exists evs, trace w' = trace w ++ evs /\ length evs = length reps.
Proof.
  induction 1 as [|w r w1 rs w' (_ & _ & Hstep) _ (evs & Htr & Hlen)].
  - exists []. rewrite app_nil_r. auto.
  - assert (exists e, trace w1 = trace w ++ [e]) as [e He].
    { destruct (names self); [|destruct Hstep]; eauto. }
    exists (e :: evs). rewrite Htr, He, <- app_assoc. cbn. auto.
Qed.

(** X12.  A text of n characters costs at most n/5 calls to pseudonym
    generation: every replaced span has five characters or more, and the
    spans do not overlap. *)
Theorem generation_calls_bounded (self : NamePseudonymizer) (t : text)
    (w : World) :
  randbelow_ok ->
  exists out w' evs,
    pseudonymize_text self t w = (Return out, w') /\
    trace w' = trace w ++ evs /\
    (5 * length evs <= length t)%nat.
Proof.
  intros Hok.
  destruct (pseudonymize_text_fill self t w (or_intror Hok))
    as (reps & w' & Hrun & Hch & Hlen).
  destruct (gen_chain_trace self w reps w' Hch) as (evs & Htr & Hevs).
  pose proof (re_scan_Scan (length t) t None (le_n _)) as Hscan.
  pose proof (hits_bound _ _ (Scan_hits _ _ _ _ Hscan)) as Hb.
  rewrite (Scan_source _ _ _ _ Hscan) in Hb.
  fold (re_scan name_pattern t) in Hb.
  eexists _, w', evs. split; [exact Hrun|]. split; [exact Htr|]. lia.
Qed.

Lemma fill_empty ps reps :
  Forall (fun r => r = []) reps -> fill ps reps = kept ps.
Proof.
  revert reps. induction ps as [|[c|m] ps IH]; intros reps Hall;
    cbn [fill kept].
  - reflexivity.
  - rewrite (IH reps Hall). reflexivity.
  - destruct Hall as [|r reps -> Hall]; [apply IH; constructor|].
    cbn. apply IH, Hall.
Qed.

Lemma kept_sublist ps : sublist (kept ps) (source ps).
Proof.
  induction ps as [|[c|m] ps IH]; cbn [kept source].
  - constructor.
  - constructor. exact IH.
  - apply sublist_inserts_l, IH.
Qed.

(** X13.  A name list of empty entries (a file of blank lines) deletes the
    matches: what is returned is the text without the matched spans. *)
Theorem empty_names_delete_matches (self : NamePseudonymizer) (t : text)
    (w : World) :
  names self <> [] ->
  Forall (fun x => x = []) (names self) ->
  randbelow_ok ->
  exists out,
    fst (pseudonymize_text self t w) = Return out /\
    out = kept (re_scan name_pattern t) /\
    sublist out t.
Proof.
  intros Hne Hall Hok.
  destruct (pseudonymize_text_fill self t w (or_intror Hok))
    as (reps & w' & Hrun & Hch & Hlen).
  destruct (names self) as [|x xs] eqn:Hn; [congruence|].
  destruct (gen_chain_choice self w reps w' x xs Hn Hch) as [Hin _].
  rewrite Hn in Hin.
  assert (Hreps : Forall (fun r => r = []) reps).
  { rewrite Forall_forall in Hin, Hall |- *. intros r Hr.
    apply Hall, Hin, Hr. }
  exists (kept (re_scan name_pattern t)).
  rewrite Hrun. cbn [fst]. rewrite (fill_empty _ _ Hreps).
  split; [reflexivity|]. split; [reflexivity|].
  pose proof (re_scan_Scan (length t) t None (le_n _)) as Hscan.
  rewrite <- (Scan_source _ _ _ _ Hscan) at 2. apply kept_sublist.
Qed.

(** ** The run of [main], continued *)








(** Opening the output file and writing the text, before any handler. *)
Definition write_attempt (args : Args) (out : text) (w : World)
    : outcome unit * World :=
  let opened :=
    match encode_utf8 (translate_newlines out) with
    | Some data =>
        (Return tt,
         mkWorld (<[output_file args := Regular data]> (files w)) (rng w)
           (threshold w) (trace w ++ [EvOpen (output_file args) true]))
    | None =>
        (Raise UnicodeError,
         mkWorld (<[output_file args := Regular []]> (files w)) (rng w)
           (threshold w) (trace w ++ [EvOpen (output_file args) true]))
    end in
  let refused e :=
    (Raise e, add_events [EvOpen (output_file args) true] w) in
  match lookup_file w (output_file args) with
  | Some Inaccessible => refused (OSError (output_file args))
  | Some (Regular _) => opened
  | None =>
      if decide (output_file args = EmptyString)
      then refused (FileNotFoundError (output_file args))
      else match create_fails (output_file args) with
           | Some e => refused e
           | None => opened
           end
  end.

Lemma write_attempt_run args out w :
  bind (open_write (output_file args))
       (fun _ => write_text (output_file args) out) w =
    write_attempt args out w.
Proof.
  unfold write_attempt, bind at 1, open_write, bind at 1, emit.
  cbn [fst snd].
  change (lookup_file _ (output_file args))
    with (lookup_file w (output_file args)).
  assert (Hopened :
    write_text (output_file args) out
      (set_files (<[output_file args := Regular []]> (files w))
         (mkWorld (files w) (rng w) (threshold w)
            (trace w ++ [EvOpen (output_file args) true]))) =
    match encode_utf8 (translate_newlines out) with
    | Some data =>
        (Return tt,
         mkWorld (<[output_file args := Regular data]> (files w)) (rng w)
           (threshold w) (trace w ++ [EvOpen (output_file args) true]))
    | None =>
        (Raise UnicodeError,
         mkWorld (<[output_file args := Regular []]> (files w)) (rng w)
           (threshold w) (trace w ++ [EvOpen (output_file args) true]))
    end).
  { unfold write_text, set_files. cbn.
    destruct (encode_utf8 (translate_newlines out)); [|reflexivity].
    rewrite insert_insert_eq. reflexivity. }
  destruct (lookup_file w (output_file args)) as [[old|]|];
    [exact Hopened|reflexivity|].
  case_decide; [reflexivity|].
  destruct (create_fails (output_file args)); [reflexivity|exact Hopened].
Qed.






(** ** The log level *)

Lemma unlogged_snoc_log tr lvl msg :
  unlogged (tr ++ [EvLog lvl msg]) = unlogged tr.
Proof.
  unfold unlogged. rewrite filter_app, filter_cons_False by (cbn; congruence).
  rewrite filter_nil. apply app_nil_r.
Qed.

Lemma unlogged_snoc tr e :
  is_log e = false -> unlogged (tr ++ [e]) = unlogged tr ++ [e].
Proof.
  intros He. unfold unlogged. rewrite filter_app, filter_cons_True by exact He.
  rewrite filter_nil. reflexivity.
Qed.

Section Related.

Context {A B : Type} (R : World -> World -> Prop).

Lemma related_ret (a : A) : related R (ret a) (ret a).
Proof. intros w1 w2 HR. split; [reflexivity|exact HR]. Qed.

Lemma related_raise (e : exn) : related R (@raise _ A e) (raise e).
Proof. intros w1 w2 HR. split; [reflexivity|exact HR]. Qed.

Lemma related_exit (c : Z) : related R (@sys_exit _ A c) (sys_exit c).
Proof. intros w1 w2 HR. split; [reflexivity|exact HR]. Qed.

Lemma related_bind (m1 m2 : M A) (k1 k2 : A -> M B) :
  related R m1 m2 -> (forall a, related R (k1 a) (k2 a)) ->
  related R (bind m1 k1) (bind m2 k2).
Proof.
  intros Hm Hk w1 w2 HR. unfold bind. destruct (Hm w1 w2 HR) as [Ho Hw].
  destruct (m1 w1) as [o1 w1'], (m2 w2) as [o2 w2']. cbn in Ho, Hw.
  subst o2. destruct o1 as [a|e|c]; [apply Hk, Hw|cbn; auto..].
Qed.

Lemma related_try (m1 m2 : M A) (h1 h2 : exn -> M A) :
  related R m1 m2 -> (forall e, related R (h1 e) (h2 e)) ->
  related R (try_except m1 h1) (try_except m2 h2).
Proof.
  intros Hm Hh w1 w2 HR. unfold try_except.
  destruct (Hm w1 w2 HR) as [Ho Hw].
  destruct (m1 w1) as [o1 w1'], (m2 w2) as [o2 w2']. cbn in Ho, Hw.
  subst o2. destruct o1 as [a|e|c]; [cbn; auto|apply Hh, Hw|cbn; auto].
Qed.

End Related.

Ltac world_fields :=
  unfold same_but_logs; cbn [fst snd files rng trace threshold add_events].

Lemma related_emit e :
  is_log e = false -> related same_but_logs (emit e) (emit e).
Proof.
  intros He w1 w2 (Hf & Hr & Ht). split; [reflexivity|].
  unfold emit. world_fields. repeat split; [assumption..|].
  rewrite !(unlogged_snoc _ _ He), Ht. reflexivity.
Qed.

Lemma related_logging lvl msg :
  related same_but_logs (logging lvl msg) (logging lvl msg).
Proof.
  intros w1 w2 (Hf & Hr & Ht). rewrite !logging_run. unfold logged.
  destruct (_ <=? _)%nat, (_ <=? _)%nat; world_fields;
    (split; [reflexivity|]); repeat split; try assumption;
    rewrite ?unlogged_snoc_log, ?app_nil_r; exact Ht.
Qed.

Lemma related_setLevel l1 l2 :
  related same_but_logs (setLevel l1) (setLevel l2).
Proof.
  intros w1 w2 (Hf & Hr & Ht). unfold setLevel. world_fields.
  repeat split; assumption.
Qed.

Lemma related_draw {A} e (f : Rng -> A * Rng) :
  is_log e = false -> related same_but_logs (draw e f) (draw e f).
Proof.
  intros He w1 w2 (Hf & Hr & Ht). unfold draw. rewrite Hr.
  destruct (f (rng w2)) as [a r]. world_fields.
  repeat split; [assumption|].
  rewrite !(unlogged_snoc _ _ He), Ht. reflexivity.
Qed.

Lemma related_open_read path :
  related same_but_logs (open_read path) (open_read path).
Proof.
  intros w1 w2 (Hf & Hr & Ht). rewrite !open_read_run.
  unfold lookup_file. rewrite Hf. world_fields.
  repeat split; [assumption..|].
  rewrite !unlogged_snoc by reflexivity. rewrite Ht. reflexivity.
Qed.

Lemma related_write_attempt args out :
  related same_but_logs
    (bind (open_write (output_file args))
          (fun _ => write_text (output_file args) out))
    (bind (open_write (output_file args))
          (fun _ => write_text (output_file args) out)).
Proof.
  intros w1 w2 (Hf & Hr & Ht). rewrite !write_attempt_run.
  unfold write_attempt, lookup_file. rewrite Hf.
  assert (Hu : unlogged (trace w1 ++ [EvOpen (output_file args) true]) =
               unlogged (trace w2 ++ [EvOpen (output_file args) true])).
  { rewrite !unlogged_snoc by reflexivity. rewrite Ht. reflexivity. }
  repeat case_match; world_fields; repeat split; congruence.
Qed.

Lemma related_generate self :
  related same_but_logs (_generate_pseudonym self) (_generate_pseudonym self).
Proof.
  unfold _generate_pseudonym. destruct (names self) as [|x xs].
  - repeat case_decide; apply related_draw; reflexivity.
  - apply related_bind; [apply related_draw; reflexivity|]. intros i.
    destruct ((x :: xs) !! i); [apply related_ret|apply related_raise].
Qed.

Lemma related_re_sub p repl :
  (forall m, related same_but_logs (repl m) (repl m)) ->
  forall s skip prev,
    related same_but_logs (re_sub_from p repl skip prev s)
      (re_sub_from p repl skip prev s).
Proof.
  intros Hrepl. induction s as [|c s IH]; intros skip prev;
    cbn [re_sub_from].
  - destruct (match_at p prev []); [apply Hrepl|apply related_ret].
  - destruct skip as [|k]; [|apply IH].
    destruct (match_at p prev (c :: s)) as [[|k]|];
      repeat (apply related_bind; [first [apply Hrepl|apply IH]|intros ?]);
      apply related_ret.
Qed.

Lemma related_init name_list_path g loc :
  related same_but_logs (__init__ name_list_path g loc)
    (__init__ name_list_path g loc).
Proof.
  unfold __init__, new_Faker.
  apply related_bind.
  { destruct (locale_supported loc); [apply related_ret|apply related_raise]. }
  intros fk. apply related_bind; [|intros ?; apply related_ret].
  destruct name_list_path as [path|]; [|apply related_ret].
  destruct (truthy (Some path)); [|apply related_ret].
  apply related_try.
  - apply related_bind; [apply related_open_read|]. intros data.
    destruct (decode _ data); [apply related_ret|apply related_raise].
  - intros e. destruct e;
      (apply related_bind; [apply related_logging|intros ?; apply related_raise]).
Qed.

(** X16.  The log level decides which log records appear and nothing else: two
    runs of [main] whose arguments differ at most in [--log_level], from
    worlds that differ at most in log records and logger level, end alike,
    with the same files, the same random state and, log records apart,
    the same trace (the same files opened, the same pseudonyms drawn, the
    same messages printed). *)
Theorem log_level_only_affects_logs (args1 args2 : Args) (w1 w2 : World) :
  input_file args1 = input_file args2 ->
  output_file args1 = output_file args2 ->
  name_list args1 = name_list args2 ->
  args_gender args1 = args_gender args2 ->
  args_locale args1 = args_locale args2 ->
  same_but_logs w1 w2 ->
  fst (main args1 w1) = fst (main args2 w2) /\
  same_but_logs (snd (main args1 w1)) (snd (main args2 w2)).
Proof.
  destruct args1 as [i o n g l lv1], args2 as [i2 o2 n2 g2 l2 lv2]. cbn.
  intros <- <- <- <- <-. revert w1 w2.
  change (related same_but_logs (main (mkArgs i o n g l lv1))
            (main (mkArgs i o n g l lv2))).
  unfold main. cbn [input_file output_file name_list args_gender args_locale
                    log_level].
  apply related_bind; [apply related_setLevel|]. intros _.
  apply related_try.
  2: { intros e. apply related_bind; [apply related_logging|]. intros _.
       apply related_bind; [apply related_emit; reflexivity|]. intros _.
       apply related_exit. }
  apply related_bind.
  { destruct (truthy n && truthy g);
      [apply related_logging|apply related_ret]. }
  intros _. apply related_bind.
  { apply related_try; [apply related_init|]. intros e.
    destruct e;
      (apply related_bind; [apply related_emit; reflexivity|]; intros _;
       apply related_exit). }
  intros self. apply related_bind; [apply related_open_read|]. intros raw.
  apply related_bind.
  { apply related_try.
    - unfold read_text. apply related_bind; [apply related_open_read|].
      intros data. destruct (decode _ data);
        [apply related_ret|apply related_raise].
    - intros e. destruct e;
        (apply related_bind; [apply related_logging|]; intros _;
         apply related_bind; [apply related_emit; reflexivity|]; intros _;
         apply related_exit). }
  intros t. apply related_bind.
  { unfold pseudonymize_text, re_sub. apply related_re_sub.
    intros _. apply related_generate. }
  intros out. apply related_bind.
  { apply related_try;
      [exact (related_write_attempt (mkArgs i o n g l lv1) out)|].
    intros e.
    apply related_bind; [apply related_logging|]. intros _.
    apply related_bind; [apply related_emit; reflexivity|]. intros _.
    apply related_exit. }
  intros _. apply related_bind; [apply related_logging|]. intros _.
  apply related_emit. reflexivity.
Qed.

End Further.

(** * The claims on the concrete world *)

#[local] Existing Instance Demo.collaborators.

Lemma demo_randbelow_ok : @randbelow_ok Demo.collaborators.
Proof.
  intros n r Hn. cbn. apply Nat.mod_upper_bound. lia.
Qed.

(** The name list of the concrete world: the duplicate and the empty line
    are kept, the whitespace around the entries is gone. *)
Example demo_names :
  fst (__init__ (E := Demo.collaborators) (Some "names.txt"%string) None
         "en_US" (Demo.world Demo.disk)) =
    Return (mkNamePseudonymizer
              [of_string "Ann Lee"; []; of_string "Ann Lee"; of_string "Bo Ek"]
              None "en_US" (mkFaker "en_US")).
Proof. vm_compute. reflexivity. Qed.

(** C1 as stated fails: "Alice<TAB>Smith" holds no span of two capitalized
    words around one space, and yet it is replaced. *)
Lemma literal_space_counterexample :
  no_match (E := Demo.collaborators) is_space_char Demo.alice_tab_smith /\
  fst (pseudonymize_text (E := Demo.collaborators) Demo.self_jordan
         Demo.alice_tab_smith (Demo.world ∅)) = Return Demo.jordan /\
  Demo.jordan <> Demo.alice_tab_smith.
Proof.
  split; [|split].
  - apply no_span_no_match, no_sep_no_span. vm_compute. repeat constructor.
  - vm_compute. reflexivity.
  - discriminate.
Qed.

Lemma pseudonymize_text_frame_witness :
  (exists ps reps w',
     Scan (E := Demo.collaborators) isspace None Demo.scenario ps /\
     source ps = Demo.scenario /\
     Forall (name_shaped isspace) (hits ps) /\
     length reps = length (hits ps) /\
     pseudonymize_text (E := Demo.collaborators) Demo.self_jordan
       Demo.scenario (Demo.world ∅) = (Return (fill ps reps), w')) /\
  pseudonymize_text (E := Demo.collaborators) Demo.self_jordan
    (of_string "no names in here.") (Demo.world ∅) =
    (Return (of_string "no names in here."), Demo.world ∅).
Proof.
  split.
  - apply (proj1 (pseudonymize_text_frame (E := Demo.collaborators)
                    Demo.self_jordan Demo.scenario (Demo.world ∅))).
    exact demo_randbelow_ok.
  - apply (proj2 (pseudonymize_text_frame (E := Demo.collaborators)
                    Demo.self_jordan (of_string "no names in here.")
                    (Demo.world ∅))).
    apply no_span_no_match, no_upper_no_span. vm_compute.
    repeat constructor.
Defined.


Lemma replacements_from_name_list_witness :
  exists ps reps w',
    Scan (E := Demo.collaborators) isspace None Demo.scenario ps /\
    pseudonymize_text (E := Demo.collaborators) Demo.self_jordan
      Demo.scenario (Demo.world ∅) = (Return (fill ps reps), w') /\
    length reps = length (hits ps) /\
    Forall (fun r => r ∈ names Demo.self_jordan) reps /\
    trace w' =
      trace (Demo.world ∅) ++
      replicate (length reps) (EvChoice (length (names Demo.self_jordan))) /\
    Forall (fun e => is_synthetic e = false)
           (drop (length (trace (Demo.world ∅))) (trace w')).
Proof.
  apply (replacements_from_name_list (E := Demo.collaborators)
           Demo.self_jordan Demo.scenario (Demo.world ∅)).
  - discriminate.
  - exact demo_randbelow_ok.
Defined.

Lemma scenario_jordan_lee_witness :
  hits (re_scan (E := Demo.collaborators) name_pattern
          (of_string "Alice Smith went to New York with Bob Jones.")) =
    [of_string "Alice Smith"; of_string "New York"; of_string "Bob Jones"] /\
  fst (pseudonymize_text (E := Demo.collaborators) Demo.self_jordan
         (of_string "Alice Smith went to New York with Bob Jones.")
         (Demo.world ∅)) =
    Return (of_string "Jordan Lee went to Jordan Lee with Jordan Lee.").
Proof.
  apply (scenario_jordan_lee (E := Demo.collaborators) Demo.self_jordan
           (Demo.world ∅)).
  - reflexivity.
  - exact demo_randbelow_ok.
Defined.

Lemma single_name_deterministic_witness :
  fst (pseudonymize_text (E := Demo.collaborators) Demo.self_jordan
         Demo.scenario (Demo.world ∅)) =
  fst (pseudonymize_text (E := Demo.collaborators) Demo.self_jordan
         Demo.scenario
         (@mkWorld Demo.collaborators Demo.disk 7%nat DEBUG [EvChoice 3])).
Proof.
  apply (single_name_deterministic (E := Demo.collaborators)
           Demo.self_jordan Demo.jordan).
  - reflexivity.
  - exact demo_randbelow_ok.
Defined.

Lemma name_list_is_stripped_lines_witness :
  exists self w' ls,
    __init__ (E := Demo.collaborators) (Some "names.txt"%string) None "en_US"
      (Demo.world Demo.disk) = (Return self, w') /\
    lines_of (universal_newlines (Demo.latin1_decode Demo.names_txt)) ls /\
    names self = map strip ls /\
    length (names self) = length ls /\
    Forall2 stripped_of ls (names self).
Proof.
  apply (name_list_is_stripped_lines (E := Demo.collaborators)
           "names.txt" None "en_US" (Demo.world Demo.disk) Demo.names_txt
           (Demo.latin1_decode Demo.names_txt)).
  - vm_compute. reflexivity.
  - reflexivity.
  - reflexivity.
Defined.

Lemma generator_dispatch_witness :
  (Some "male"%string = Some "male"%string ->
   _generate_pseudonym (E := Demo.collaborators)
     (mkNamePseudonymizer [] (Some "male"%string) "en_US" (mkFaker "en_US"))
     (Demo.world Demo.disk) =
     draw (EvNameMale "en_US") (fake_name_male "en_US")
       (Demo.world Demo.disk)) /\
  (Some "male"%string = Some "female"%string ->
   _generate_pseudonym (E := Demo.collaborators)
     (mkNamePseudonymizer [] (Some "male"%string) "en_US" (mkFaker "en_US"))
     (Demo.world Demo.disk) =
     draw (EvNameFemale "en_US") (fake_name_female "en_US")
       (Demo.world Demo.disk)) /\
  (Some "male"%string = None ->
   _generate_pseudonym (E := Demo.collaborators)
     (mkNamePseudonymizer [] (Some "male"%string) "en_US" (mkFaker "en_US"))
     (Demo.world Demo.disk) =
     draw (EvName "en_US") (fake_name "en_US") (Demo.world Demo.disk)).
Proof.
  apply (generator_dispatch (E := Demo.collaborators) None
           (Some "male"%string) "en_US" (Demo.world ∅) (Demo.world ∅)).
  - reflexivity.
  - reflexivity.
Defined.

Lemma missing_input_exits_witness :
  exists o w',
    main (E := Demo.collaborators) (Demo.args None None) (Demo.world ∅) =
      (o, w') /\
    exit_status o = 1%Z /\
    files w' = files (Demo.world ∅) /\
    Forall (fun e => forall q, e <> EvOpen q true)
           (drop (length (trace (Demo.world ∅))) (trace w')) /\
    (forall self w2,
       __init__ (E := Demo.collaborators) None None "en_US"
         (start (Demo.args None None) (Demo.world ∅)) = (Return self, w2) ->
       w' = add_events
              [EvOpen "in.txt" false;
               EvLog CRITICAL (Unexpected (FileNotFoundError "in.txt"));
               EvPrint (Unexpected (FileNotFoundError "in.txt"))]
              w2) /\
    (forall e w2,
       __init__ (E := Demo.collaborators) None None "en_US"
         (start (Demo.args None None) (Demo.world ∅)) = (Raise e, w2) ->
       w' = add_events [EvPrint (init_failure e)] w2).
Proof.
  apply (missing_input_exits (E := Demo.collaborators) (Demo.args None None)
           (Demo.world ∅)).
  reflexivity.
Defined.

(** C8 as stated fails when construction fails first: with a locale the
    generator rejects, the input file missing as well, the only message
    printed is the one of the locale; no FileNotFound message appears. *)
Lemma missing_input_bad_locale_counterexample :
  lookup_file (Demo.world Demo.disk) "absent.txt" = None /\
  main (E := Demo.collaborators)
    (mkArgs "absent.txt" "out.txt" None None "xx_XX" INFO)
    (Demo.world Demo.disk) =
    (Exit 1,
     @mkWorld Demo.collaborators Demo.disk 0%nat INFO
       [EvPrint (InitError (LocaleError "xx_XX"))]).
Proof. split; vm_compute; reflexivity. Qed.

(** C9 as stated fails for the empty path: no file exists there, and yet
    construction succeeds without names, the input file is opened and the
    run ends with status 0. *)
Lemma empty_path_counterexample :
  name_list (Demo.args (Some EmptyString) None) = Some EmptyString /\
  lookup_file (Demo.world Demo.disk) EmptyString = None /\
  fst (__init__ (E := Demo.collaborators) (Some EmptyString) None "en_US"
         (start (Demo.args (Some EmptyString) None) (Demo.world Demo.disk))) =
    Return (mkNamePseudonymizer [] None "en_US" (mkFaker "en_US")) /\
  exit_status
    (fst (main (E := Demo.collaborators) (Demo.args (Some EmptyString) None)
            (Demo.world Demo.disk))) = 0%Z /\
  trace (snd (main (E := Demo.collaborators)
                (Demo.args (Some EmptyString) None) (Demo.world Demo.disk))) =
    [EvOpen "in.txt" false; EvOpen "in.txt" false; EvName "en_US";
     EvOpen "out.txt" true; EvLog INFO (Written "out.txt");
     EvPrint (Written "out.txt")].
Proof.
  repeat split; vm_compute; reflexivity.
Qed.

Lemma missing_name_list_exits_witness :
  exists e w2,
    __init__ (E := Demo.collaborators) (Some "missing.txt"%string)
      (Some "male"%string) "en_US"
      (start (Demo.args (Some "missing.txt"%string) (Some "male"%string))
         (Demo.world Demo.disk)) = (Raise e, w2) /\
    main (E := Demo.collaborators)
      (Demo.args (Some "missing.txt"%string) (Some "male"%string))
      (Demo.world Demo.disk) =
      (Exit 1, add_events [EvPrint (init_failure e)] w2) /\
    (locale_supported (Collaborators := Demo.collaborators) "en_US" = true ->
     e = FileNotFoundError "missing.txt" /\
     init_failure e = ErrorMsg (FileNotFoundError "missing.txt") /\
     w2 = add_events
            ([EvOpen "missing.txt" false] ++
             logged
               (start
                  (Demo.args (Some "missing.txt"%string) (Some "male"%string))
                  (Demo.world Demo.disk))
               ERROR (NameListNotFound "missing.txt"))
            (start
               (Demo.args (Some "missing.txt"%string) (Some "male"%string))
               (Demo.world Demo.disk))) /\
    (locale_supported (Collaborators := Demo.collaborators) "en_US" = false ->
     e = LocaleError "en_US" /\
     w2 = start (Demo.args (Some "missing.txt"%string) (Some "male"%string))
            (Demo.world Demo.disk)) /\
    trace (start (Demo.args (Some "missing.txt"%string) (Some "male"%string))
             (Demo.world Demo.disk)) =
      trace (Demo.world Demo.disk) ++
      (if truthy (Some "male"%string)
       then logged
              (start
                 (Demo.args (Some "missing.txt"%string) (Some "male"%string))
                 (Demo.world Demo.disk))
              WARNING BothGiven
       else []) /\
    Forall (fun ev => forall q b,
              ev = EvOpen q b -> q = "missing.txt"%string /\ b = false)
           (drop (length (trace (Demo.world Demo.disk)))
              (trace w2 ++ [EvPrint (init_failure e)])).
Proof.
  apply (missing_name_list_exits (E := Demo.collaborators)
           (Demo.args (Some "missing.txt"%string) (Some "male"%string))
           (Demo.world Demo.disk) "missing.txt").
  - reflexivity.
  - discriminate.
  - vm_compute. reflexivity.
Defined.

(** The two runs of the missing name list on the concrete world: with the
    locale accepted, and with a locale the generator rejects.  Neither
    opens the input file. *)
Example demo_missing_name_list_runs :
  main (E := Demo.collaborators)
    (Demo.args (Some "missing.txt"%string) None) (Demo.world Demo.disk) =
    (Exit 1,
     @mkWorld Demo.collaborators Demo.disk 0%nat INFO
       [EvOpen "missing.txt" false;
        EvLog ERROR (NameListNotFound "missing.txt");
        EvPrint (ErrorMsg (FileNotFoundError "missing.txt"))]) /\
  main (E := Demo.collaborators)
    (mkArgs "in.txt" "out.txt" (Some "missing.txt"%string) None "xx_XX" INFO)
    (Demo.world Demo.disk) =
    (Exit 1,
     @mkWorld Demo.collaborators Demo.disk 0%nat INFO
       [EvPrint (InitError (LocaleError "xx_XX"))]).
Proof. split; vm_compute; reflexivity. Qed.


(** The run of [main] on the concrete world with the empty name list and
    [--gender male]: the warning is logged, and the one match of the input
    is replaced by a male name of the generator. *)
Example demo_empty_name_list_run :
  trace (snd (main (E := Demo.collaborators)
                (Demo.args (Some "empty.txt"%string) (Some "male"%string))
                (Demo.world Demo.disk))) =
    [EvLog WARNING BothGiven; EvOpen "empty.txt" false;
     EvOpen "in.txt" false; EvOpen "in.txt" false; EvNameMale "en_US";
     EvOpen "out.txt" true; EvLog INFO (Written "out.txt");
     EvPrint (Written "out.txt")] /\
  files (snd (main (E := Demo.collaborators)
                (Demo.args (Some "empty.txt"%string) (Some "male"%string))
                (Demo.world Demo.disk))) !! "out.txt"%string =
    Some (Regular (Demo.to_bytes "John Doe Smith, hello.")).
Proof. split; vm_compute; reflexivity. Qed.

(** * The further properties on the concrete world *)

Lemma newline_round_trip_witness :
  universal_newlines
    (translate_newlines (E := Demo.collaborators)
       (of_string "Ann Lee" ++ [10] ++ of_string "Bo Ek" ++ [10])) =
    of_string "Ann Lee" ++ [10] ++ of_string "Bo Ek" ++ [10].
Proof.
  apply (newline_round_trip (E := Demo.collaborators)).
  - left. reflexivity.
  - intros Hin. apply list_elem_of_In in Hin. cbn in Hin.
    intuition discriminate.
Defined.

Lemma final_newline_irrelevant_witness :
  map strip (lines (of_string "Ann Lee" ++ [10] ++ of_string "Bo Ek" ++ [10])) =
    map strip (lines (of_string "Ann Lee" ++ [10] ++ of_string "Bo Ek")) /\
  map strip (lines ((of_string "Ann Lee" ++ [10]) ++ [10])) =
    map strip (lines (of_string "Ann Lee" ++ [10])) ++ [[]].
Proof.
  split.
  - apply (proj1 (final_newline_irrelevant
                    (of_string "Ann Lee" ++ [10] ++ of_string "Bo Ek"))).
    + discriminate.
    + vm_compute. discriminate.
  - apply (proj2 (final_newline_irrelevant (of_string "Ann Lee" ++ [10]))).
    right. vm_compute. reflexivity.
Defined.

Lemma construction_errors_witness :
  (locale_supported (Collaborators := Demo.collaborators) "en_US" = false /\
   @Raise NamePseudonymizer (FileNotFoundError "missing.txt") =
     Raise (LocaleError "en_US") /\
   add_events
     [EvOpen "missing.txt" false; EvLog ERROR (NameListNotFound "missing.txt")]
     (Demo.world Demo.disk) = Demo.world Demo.disk) \/
  (locale_supported (Collaborators := Demo.collaborators) "en_US" = true /\
   exists path e,
     Some "missing.txt"%string = Some path /\ path <> EmptyString /\
     Raise (FileNotFoundError "missing.txt") =
       @Raise NamePseudonymizer e /\
     add_events
       [EvOpen "missing.txt" false;
        EvLog ERROR (NameListNotFound "missing.txt")]
       (Demo.world Demo.disk) =
       add_events
         ([EvOpen path false] ++
          logged (Demo.world Demo.disk) ERROR
            (match e with
             | FileNotFoundError _ => NameListNotFound path
             | _ => NameListReadError e
             end)) (Demo.world Demo.disk) /\
     ((files (Demo.world Demo.disk) !! path = None /\
       e = FileNotFoundError path) \/
      (files (Demo.world Demo.disk) !! path = Some Inaccessible /\
       e = OSError path) \/
      (exists data,
         files (Demo.world Demo.disk) !! path = Some (Regular data) /\
         decode (Some "utf-8"%string) data = None /\
         e = UnicodeError))).
Proof.
  apply (construction_errors (E := Demo.collaborators)
           (Some "missing.txt"%string) None "en_US" (Demo.world Demo.disk)).
  - vm_compute. reflexivity.
  - discriminate.
Defined.

Lemma name_list_empty_iff_witness :
  exists self w',
    __init__ (E := Demo.collaborators) (Some "names.txt"%string) None "en_US"
      (Demo.world Demo.disk) = (Return self, w') /\
    (names self = [] <-> Demo.latin1_decode Demo.names_txt = []).
Proof.
  apply (name_list_empty_iff (E := Demo.collaborators) "names.txt" None
           "en_US" (Demo.world Demo.disk) Demo.names_txt).
  - vm_compute. reflexivity.
  - reflexivity.
  - reflexivity.
Defined.

Lemma name_entries_clean_witness :
  Forall (fun x =>
            (strip x = x) /\
            (forall c, head x = Some c -> isspace c = false) /\
            (forall c, last x = Some c -> isspace c = false) /\
            (10 ∉ x) /\ (13 ∉ x))
         [of_string "Ann Lee"; []; of_string "Ann Lee"; of_string "Bo Ek"].
Proof.
  apply (name_entries_clean (E := Demo.collaborators)
           (Some "names.txt"%string) None "en_US" (Demo.world Demo.disk)
           (add_events [EvOpen "names.txt" false] (Demo.world Demo.disk))
           (mkNamePseudonymizer
              [of_string "Ann Lee"; []; of_string "Ann Lee";
               of_string "Bo Ek"] None "en_US" (mkFaker "en_US"))).
  vm_compute. reflexivity.
Defined.

Lemma unchanged_without_name_material_witness :
  pseudonymize_text (E := Demo.collaborators) Demo.self_jordan
    (of_string "Al B") (Demo.world Demo.disk) =
    (Return (of_string "Al B"), Demo.world Demo.disk).
Proof.
  apply (unchanged_without_name_material (E := Demo.collaborators)).
  right. right. cbn. lia.
Defined.

Lemma gender_ignored_with_names_witness :
  pseudonymize_text (E := Demo.collaborators) Demo.self_jordan Demo.scenario
    (Demo.world Demo.disk) =
  pseudonymize_text (E := Demo.collaborators)
    (mkNamePseudonymizer [Demo.jordan] (Some "male"%string) "fr_FR"
       (mkFaker "fr_FR"))
    Demo.scenario (Demo.world Demo.disk).
Proof.
  apply (gender_ignored_with_names (E := Demo.collaborators)).
  - reflexivity.
  - discriminate.
Defined.

Lemma generation_calls_bounded_witness :
  exists out w' evs,
    pseudonymize_text (E := Demo.collaborators) Demo.self_jordan
      Demo.scenario (Demo.world Demo.disk) = (Return out, w') /\
    trace w' = trace (Demo.world Demo.disk) ++ evs /\
    (5 * length evs <= length Demo.scenario)%nat.
Proof.
  apply (generation_calls_bounded (E := Demo.collaborators)).
  exact demo_randbelow_ok.
Defined.

Lemma empty_names_delete_matches_witness :
  exists out,
    fst (pseudonymize_text (E := Demo.collaborators)
           (mkNamePseudonymizer [[]; []] None "en_US" (mkFaker "en_US"))
           Demo.scenario (Demo.world Demo.disk)) = Return out /\
    out = kept (re_scan name_pattern Demo.scenario) /\
    sublist out Demo.scenario.
Proof.
  apply (empty_names_delete_matches (E := Demo.collaborators)).
  - discriminate.
  - repeat constructor.
  - exact demo_randbelow_ok.
Defined.


Lemma log_level_only_affects_logs_witness :
  fst (main (E := Demo.collaborators)
         (Demo.args (Some "missing.txt"%string) (Some "male"%string))
         (Demo.world Demo.disk)) =
  fst (main (E := Demo.collaborators)
         (mkArgs "in.txt" "out.txt" (Some "missing.txt"%string)
            (Some "male"%string) "en_US" CRITICAL)
         (Demo.world Demo.disk)) /\
  same_but_logs
    (snd (main (E := Demo.collaborators)
            (Demo.args (Some "missing.txt"%string) (Some "male"%string))
            (Demo.world Demo.disk)))
    (snd (main (E := Demo.collaborators)
            (mkArgs "in.txt" "out.txt" (Some "missing.txt"%string)
               (Some "male"%string) "en_US" CRITICAL)
            (Demo.world Demo.disk))).
Proof.
  apply (log_level_only_affects_logs (E := Demo.collaborators));
    try reflexivity.
  repeat split; reflexivity.
Defined.

(** The two runs above, side by side: at level CRITICAL the warning and
    the error record are gone, the printed error stays. *)
Example demo_log_levels :
  trace (snd (main (E := Demo.collaborators)
                (Demo.args (Some "missing.txt"%string) (Some "male"%string))
                (Demo.world Demo.disk))) =
    [EvLog WARNING BothGiven; EvOpen "missing.txt" false;
     EvLog ERROR (NameListNotFound "missing.txt");
     EvPrint (ErrorMsg (FileNotFoundError "missing.txt"))] /\
  trace (snd (main (E := Demo.collaborators)
                (mkArgs "in.txt" "out.txt" (Some "missing.txt"%string)
                   (Some "male"%string) "en_US" CRITICAL)
                (Demo.world Demo.disk))) =
    [EvOpen "missing.txt" false;
     EvPrint (ErrorMsg (FileNotFoundError "missing.txt"))].
Proof. split; vm_compute; reflexivity. Qed.
